(** * Resume indexing and job-description matching agents

    A shallow embedding of [resume_agent.py] (the two pipelines and their
    helpers) and of the trigger task of [server.py], with the properties of
    the written specification stated and settled against it.

    Conventions.  A Python [str] is a [list ascii] (abbreviated [str]),
    each [ascii] standing for the character with that code point (0 to 255,
    the Latin-1 range); a literal is written [lit "..."].  A Python [float]
    is a primitive binary64 float.  A MongoDB collection is a finite map
    from [_id] to document, read in an order the store decides.
    Python exceptions are explicit: every effectful operation returns an
    [outcome], and [try]/[except Exception] is the combinator [try_except]. *)

From Stdlib Require Import ZArith Ascii String List Floats.
From stdpp Require Import base option list gmap strings fin_maps sorting.

Set Default Proof Using "Type".
Set Warnings "-inexact-float".
Local Open Scope list_scope.

(** ** Text *)

Abbreviation str := (list ascii).

Definition lit (s : string) : str := list_ascii_of_string s.

(** [str.isspace] for one character, which is also the class [\s] of [re]
    on a [str] and what [str.strip] removes: among the code points below
    256 these are TAB, LF, VT, FF, CR, the separators 0x1c-0x1f, the space,
    NEL (U+0085) and the no-break space (U+00A0). *)
Definition is_space (c : ascii) : bool :=
  let n := nat_of_ascii c in
  ((9 <=? n) && (n <=? 13)) || ((28 <=? n) && (n <=? 31)) || (n =? 32)
  || (n =? 133) || (n =? 160).

(** The no-break space. *)
Definition nbsp : ascii := ascii_of_nat 160.

(** [s.lstrip()], [s.rstrip()] and [s.strip()]. *)
Fixpoint lstrip (s : str) : str :=
  match s with
  | [] => []
  | c :: s' => if is_space c then lstrip s' else s
  end.

Definition rstrip (s : str) : str := reverse (lstrip (reverse s)).

Definition strip (s : str) : str := rstrip (lstrip s).

(** Python truthiness of a string: [not s] is [falsy_str s]. *)
Definition falsy_str (s : str) : bool :=
  match s with [] => true | _ => false end.

(** [s.lower()]: the capital letters below code point 256 are A-Z and
    U+00C0-U+00DE without the multiplication sign U+00D7; each has its small
    letter 32 code points above it. *)
Definition lower_char (c : ascii) : ascii :=
  let n := nat_of_ascii c in
  if ((65 <=? n) && (n <=? 90))
     || ((192 <=? n) && (n <=? 222) && negb (n =? 215))
  then ascii_of_nat (n + 32) else c.

Definition lower (s : str) : str := map lower_char s.

(** [s.startswith(p)] and [s.endswith(p)]. *)
Definition startswith (p s : str) : bool := bool_decide (p `prefix_of` s).
Definition endswith (p s : str) : bool := bool_decide (p `suffix_of` s).

(** [s.find(sep)] for a non-empty [sep], returned as the text before and
    the text after the leftmost occurrence. *)
Fixpoint find_sep (sep s : str) : option (str * str) :=
  match s with
  | [] => None
  | c :: s' =>
      if startswith sep s then Some ([], drop (length sep) s)
      else match find_sep sep s' with
           | Some (before, after) => Some (c :: before, after)
           | None => None
           end
  end.

(** [s.split(sep)] for a non-empty [sep]: occurrences are taken leftmost
    first and do not overlap.  The recursion is on the number of pieces,
    which never exceeds the length of [s]. *)
Fixpoint split_from (fuel : nat) (sep s : str) : list str :=
  match fuel with
  | O => [s]
  | S n =>
      match find_sep sep s with
      | None => [s]
      | Some (before, after) => before :: split_from n sep after
      end
  end.

Definition py_split (sep s : str) : list str := split_from (length s) sep s.

(** [l[-1]] on a list known to be non-empty; [split] never returns []. *)
Definition last_piece (l : list str) : str := List.last l [].

(** ** Key derivation *)

Definition MARKER : str := lit ".amazonaws.com/".

Definition extract_s3_key (url : str) : str :=
  last_piece (py_split MARKER url).

(** [sep] occurs in [s] with [a] before it and [b] after it. *)
Definition occurs_at (sep s a b : str) : Prop := s = a ++ sep ++ b.

Definition occurs (sep s : str) : Prop := ∃ a b, occurs_at sep s a b.

(** The occurrence at [a] is the last one: no occurrence starts later. *)
Definition last_occurrence (sep s a b : str) : Prop :=
  occurs_at sep s a b ∧
  ∀ a' b', occurs_at sep s a' b' → length a' ≤ length a.

(** No proper shift of [sep] matches [sep] on the overlap, so two
    occurrences of [sep] never overlap. *)
Definition unbordered (sep : str) : Prop :=
  ∀ d, 0 < d < length sep → drop d sep ≠ take (length sep - d) sep.

Definition unborderedb (sep : str) : bool :=
  forallb (fun d => negb (bool_decide (drop d sep = take (length sep - d) sep)))
          (seq 1 (length sep - 1)).

(** ** Values, exceptions and outcomes *)

(** Field values of a schemaless document, as far as the agents look at
    them. *)
Inductive value :=
| VNull
| VBool (b : bool)
| VInt (z : Z)
| VStr (s : str).

Global Instance value_eq_dec : EqDecision value.
Proof. solve_decision. Defined.

(** Python truthiness of a field value; an absent field reads as [None]. *)
Definition truthy (v : value) : bool :=
  match v with
  | VNull => false
  | VBool b => b
  | VInt z => negb (z =? 0)%Z
  | VStr s => negb (falsy_str s)
  end.

(** Who raised an exception: a collaborator, or the agent's own code. *)
Inductive origin :=
| S3Client | ImageDecoder | Ocr | PdfReader | Rasterizer | Embedder
| DocumentStore | VectorIndex | Resources | Agent.

Global Instance origin_eq_dec : EqDecision origin.
Proof. solve_decision. Defined.

(** An exception (a subclass of [Exception]); [str(e)] is [exn_msg e]. *)
Record exn := Exn { exn_origin : origin; exn_msg : str }.

Global Instance exn_eq_dec : EqDecision exn.
Proof. solve_decision. Defined.

(** What a collaborator call gives back: an error message or a value. *)
Abbreviation result A := (str + A)%type.

Inductive outcome (A : Type) :=
| Ok (a : A)
| Raise (e : exn)
| Diverge.
Global Arguments Ok {A} a.
Global Arguments Raise {A} e.
Global Arguments Diverge {A}.

(** ** Documents and vector points *)

Abbreviation blob := (list ascii).
Abbreviation vector := (list float).

(** An application document; the key of the collection is its [_id]. *)
Record application := {
  resume : option value;
  resume_status : option value;
  rag_uploaded : option value;
  jobID : option str;
  error : option str;
  indexed_at : option nat;
}.

Record payload := {
  p_application_id : option value;
  p_job_id : option value;
  p_resume_text : option value;
}.

(** [PointStruct(id, vector, payload)]. *)
Record point := {
  pt_id : str;
  pt_vector : vector;
  pt_payload : payload;
}.

(** One entry of a query answer: [r.payload] and [r.score]. *)
Record scored_point := {
  sp_payload : option payload;
  sp_score : option float;
}.

Record company := { c_id : str; aiFeaturesEnabled : option value }.
Record job_status := { js_id : str; js_company_id : str; jobStatus : option value }.
Record job := {
  j_id : str; j_company_id : str; j_status : option value;
  description : option value;
}.

(** The [$set] documents the agents send. *)
Inductive update :=
| SetIndexed (now : nat)
| SetFailed (msg : str)
| SetStatus (status : str).

Definition apply_update (u : update) (d : application) : application :=
  match u with
  | SetIndexed now =>
      {| resume := resume d; resume_status := Some (VStr (lit "indexed"));
         rag_uploaded := Some (VBool true); jobID := jobID d;
         error := error d; indexed_at := Some now |}
  | SetFailed msg =>
      {| resume := resume d; resume_status := Some (VStr (lit "failed"));
         rag_uploaded := rag_uploaded d; jobID := jobID d;
         error := Some msg; indexed_at := indexed_at d |}
  | SetStatus status =>
      {| resume := resume d; resume_status := Some (VStr status);
         rag_uploaded := rag_uploaded d; jobID := jobID d;
         error := error d; indexed_at := indexed_at d |}
  end.

(** ** Collaborator calls and the world *)

(** The calls to the document store, to the vector index and to the
    embedding model, and the pause of the loop, in the order made.  The
    download of a resume and the reading of its text are not recorded:
    they are functions of the environment (see the extractor). *)
Inductive event :=
| EvCount
| EvFind
| EvUpdate (id : value) (u : update)
| EvUpsert (points : list point)
| EvSleep
| EvEncode (text : str)
| EvQuery (query : vector)
| EvFindCompanies
| EvFindStatuses (company_id : str)
| EvFindJobs (company_id : str) (status : str).

Definition origin_of (ev : event) : origin :=
  match ev with
  | EvUpsert _ | EvQuery _ => VectorIndex
  | EvEncode _ => Embedder
  | _ => DocumentStore
  end.

(** Calls answered by the document store. *)
Definition store_event (ev : event) : bool :=
  match ev with
  | EvCount | EvFind | EvUpdate _ _
  | EvFindCompanies | EvFindStatuses _ | EvFindJobs _ _ => true
  | _ => false
  end.

Record world := {
  applications : gmap str application;
  trace : list event;
}.

(** Configuration, the resources [init_resources] leaves behind, the local
    libraries as functions of their input, and the remote services.  The
    [n]-th call of a run fails with message [m] when [fault n ev = Some m];
    [natural_rank id] is the place of the document [id] in the order in which
    the store hands out documents when no sort is asked for. *)
Record env := {
  BATCH_SIZE : Z;
  S3_BUCKET : str;
  init_error : option str;
  s3_configured : bool;
  applications_configured : bool;
  qdrant_configured : bool;
  model_loaded : bool;
  mongo_id_to_uuid : str → str;
  s3_get_object : str → str → result blob;
  image_open : blob → result blob;
  image_to_string : blob → result str;
  fitz_open : blob → result (list blob);
  get_text : blob → result str;
  convert_from_bytes : blob → result (list blob);
  model_encode : str → result vector;
  soup_get_text : str → str;
  fault : nat → event → option str;
  natural_rank : str → nat;
  query_points : vector → list scored_point;
  companies : list company;
  job_statuses : list job_status;
  jobs : list job;
}.

(** ** The effect monad: state, exceptions, fuel *)

Definition M (A : Type) : Type := world → outcome A * world.

Definition ret {A} (a : A) : M A := fun w => (Ok a, w).

Definition raise {A} (e : exn) : M A := fun w => (Raise e, w).

Definition diverge {A} : M A := fun w => (Diverge, w).

Definition bind {A B} (m : M A) (k : A → M B) : M B := fun w =>
  match m w with
  | (Ok a, w') => k a w'
  | (Raise e, w') => (Raise e, w')
  | (Diverge, w') => (Diverge, w')
  end.

(** [try: a = m; k(a)  except Exception as e: h(e)] where only [m] is
    inside the [try]. *)
Definition catch {A B} (m : M A) (k : A → M B) (h : exn → M B) : M B :=
  fun w =>
    match m w with
    | (Ok a, w') => k a w'
    | (Raise e, w') => h e w'
    | (Diverge, w') => (Diverge, w')
    end.

Definition try_except {A} (m : M A) (h : exn → M A) : M A := catch m ret h.

Declare Scope agent_scope.
Delimit Scope agent_scope with agent.
Notation "'let*' x ':=' m 'in' k" := (bind m (fun x => k))
  (at level 10, x name, m at level 100, k at level 200) : agent_scope.
Notation "m '>>' k" := (bind m (fun _ => k))
  (at level 100, k at level 200, right associativity) : agent_scope.
Local Open Scope agent_scope.

Definition log (ev : event) (w : world) : world :=
  {| applications := applications w; trace := trace w ++ [ev] |}.

(** A call to a remote service: logged, then failed or answered. *)
Definition call (E : env) (ev : event) : M unit := fun w =>
  match fault E (length (trace w)) ev with
  | Some msg => (Raise (Exn (origin_of ev) msg), log ev w)
  | None => (Ok tt, log ev w)
  end.

Definition lift_result {A} (o : origin) (r : result A) : M A :=
  match r with
  | inl msg => raise (Exn o msg)
  | inr a => ret a
  end.

(** [time.time()], read off the number of calls made so far. *)
Definition now : M nat := fun w => (Ok (length (trace w)), w).

(** [applications.update_one({"_id": id}, {"$set": u})]: at most the one
    document with that [_id] changes; no document has an [_id] that is not a
    string. *)
Definition update_one (E : env) (id : value) (u : update) : M unit :=
  call E (EvUpdate id u) >>
  fun w =>
    match id with
    | VStr k =>
        (Ok tt, {| applications := alter (apply_update u) k (applications w);
                   trace := trace w |})
    | _ => (Ok tt, w)
    end.

(** [model.encode(text).tolist()]. *)
Definition encode (E : env) (text : str) : M vector :=
  (fun w => (Ok tt, log (EvEncode text) w)) >>
  lift_result Embedder (model_encode E text).

Definition sleep : M unit := fun w => (Ok tt, log EvSleep w).

(** ** Extractor *)

(** [text += f(x)] for each [x]; stops at the first call that raises and
    keeps what was accumulated before it. *)
Fixpoint accumulate {A} (f : A → result str) (xs : list A) (text : str)
  : str * option str :=
  match xs with
  | [] => (text, None)
  | x :: xs' =>
      match f x with
      | inl msg => (text, Some msg)
      | inr t => accumulate f xs' (text ++ t)
      end
  end.

(** [key.lower().endswith((".jpg", ".jpeg", ".png"))]. *)
Definition is_image_key (key : str) : bool :=
  let k := lower key in
  endswith (lit ".jpg") k || endswith (lit ".jpeg") k
  || endswith (lit ".png") k.

(** [images = convert_from_bytes(file_bytes)] followed by
    [for img in images: text += pytesseract.image_to_string(img)]. *)
Definition ocr_pages (E : env) (file_bytes : blob) (text : str)
  : str * option exn :=
  match convert_from_bytes E file_bytes with
  | inl msg => (text, Some (Exn Rasterizer msg))
  | inr images =>
      match accumulate (image_to_string E) images text with
      | (t, Some msg) => (t, Some (Exn Ocr msg))
      | (t, None) => (t, None)
      end
  end.

(** The text layer: [fitz.open] and [text += page.get_text()] per page. *)
Definition text_layer (E : env) (file_bytes : blob) : str * option exn :=
  match fitz_open E file_bytes with
  | inl msg => ([], Some (Exn PdfReader msg))
  | inr doc =>
      match accumulate (get_text E) doc [] with
      | (t, Some msg) => (t, Some (Exn PdfReader msg))
      | (t, None) => (t, None)
      end
  end.

(** The body of the [try] of the PDF branch. *)
Definition pdf_try (E : env) (file_bytes : blob) : str * option exn :=
  match text_layer E file_bytes with
  | (text, Some e) => (text, Some e)
  | (text, None) =>
      if falsy_str (strip text) then ocr_pages E file_bytes text
      else (text, None)
  end.

(** The PDF branch: the [try] and its [except Exception] handler, which
    runs the OCR pass on whatever text the [try] left behind. *)
Definition pdf_text (E : env) (file_bytes : blob) : str * option exn :=
  match pdf_try E file_bytes with
  | (text, Some _) => ocr_pages E file_bytes text
  | (text, None) => (text, None)
  end.

(** The image branch: [Image.open] and one OCR call. *)
Definition image_text (E : env) (file_bytes : blob) : str * option exn :=
  match image_open E file_bytes with
  | inl msg => ([], Some (Exn ImageDecoder msg))
  | inr image =>
      match image_to_string E image with
      | inl msg => ([], Some (Exn Ocr msg))
      | inr t => (t, None)
      end
  end.

(** The text accumulated when the final test is reached, or the exception
    that left the function before it. *)
Definition accumulated_text (E : env) (url : str) : exn + str :=
  if negb (s3_configured E)
  then inl (Exn Agent (lit "S3 client not configured"))
  else
    let key := extract_s3_key url in
    match s3_get_object E (S3_BUCKET E) key with
    | inl msg => inl (Exn S3Client msg)
    | inr file_bytes =>
        match (if is_image_key key then image_text E file_bytes
               else pdf_text E file_bytes) with
        | (_, Some e) => inl e
        | (text, None) => inr text
        end
    end.

Definition NoTextExtracted : exn := Exn Agent (lit "No text extracted").

Definition extract_text_from_s3 (E : env) (url : str) : exn + str :=
  match accumulated_text E url with
  | inl e => inl e
  | inr text =>
      if falsy_str (strip text) then inl NoTextExtracted else inr text
  end.

(** ** Indexing pipeline *)

(** [init_resources()]: creating a client can raise; what it leaves behind
    is read off [E]. *)
Definition init_resources (E : env) : M unit :=
  match init_error E with
  | Some msg => raise (Exn Resources msg)
  | None => ret tt
  end.

(** [{"$exists": True, "$regex": "^http"}]: a string that starts with
    "http". *)
Definition regex_http (v : value) : bool :=
  match v with
  | VStr s => startswith (lit "http") s
  | _ => false
  end.

(** The filter of the indexing poll, on one document. *)
Definition indexing_query (d : application) : bool :=
  from_option regex_http false (resume d)
  && bool_decide (resume_status d = Some (VStr (lit "open")))
  && (bool_decide (rag_uploaded d = Some (VBool false))
      || bool_decide (rag_uploaded d = Some (VStr (lit "False")))
      || bool_decide (rag_uploaded d = None)).

(** [cursor.limit(n)]: 0 means no limit, a negative [n] counts as [-n]. *)
Definition limit {A} (n : Z) (l : list A) : list A :=
  if (n =? 0)%Z then l else take (Z.abs_nat n) l.

(** The documents the filter matches; [count_documents] counts them. *)
Definition pending (apps : gmap str application)
  : list (str * application) :=
  filter (fun kd => indexing_query kd.2 = true) (map_to_list apps).

(** A cursor without a sort yields the matching documents in the store's
    own order, which the agent does not choose. *)
Definition comes_before (E : env) (x y : str * application) : Prop :=
  natural_rank E x.1 ≤ natural_rank E y.1.

Global Instance comes_before_dec (E : env) : RelDecision (comes_before E).
Proof. intros x y. unfold comes_before. apply _. Defined.

Definition natural_order (E : env) (docs : list (str * application))
  : list (str * application) :=
  merge_sort (comes_before E) docs.

(** [applications.count_documents(query)]. *)
Definition count_documents (E : env) : M nat :=
  call E EvCount >>
  fun w => (Ok (length (pending (applications w))), w).

(** [list(applications.find(query).limit(BATCH_SIZE))]. *)
Definition find_batch (E : env) : M (list (str * application)) :=
  call E EvFind >>
  fun w =>
    (Ok (limit (BATCH_SIZE E) (natural_order E (pending (applications w)))),
     w).

(** [app["resume"]] handed to the extractor, which needs a string. *)
Definition resume_url (app : application) : M str :=
  match resume app with
  | Some (VStr url) => ret url
  | Some _ => raise (Exn Agent (lit "object has no attribute 'split'"))
  | None => raise (Exn Agent (lit "'resume'"))
  end.

Definition lift_sum {A} (r : exn + A) : M A :=
  match r with
  | inl e => raise e
  | inr a => ret a
  end.

(** Lines 198-210 up to the construction of the [PointStruct]. *)
Definition build_point (E : env) (app_id job_id : str) (app : application)
  : M point :=
  let* url := resume_url app in
  let* text := lift_sum (extract_text_from_s3 E url) in
  let* embedding := encode E text in
  ret {| pt_id := mongo_id_to_uuid E app_id;
         pt_vector := embedding;
         pt_payload :=
           {| p_application_id := Some (VStr app_id);
              p_job_id := Some (VStr job_id);
              p_resume_text := Some (VStr (take 1500 text)) |} |}.

(** The handler of the per-record [try]. *)
Definition mark_failed (E : env) (app_id : str) (e : exn) : M unit :=
  update_one E (VStr app_id) (SetFailed (exn_msg e)).

Definition mark_indexed (E : env) (app_id : str) : M unit :=
  let* t := now in
  update_one E (VStr app_id) (SetIndexed t).

(** One turn of [for app in batch]; [points] is the list being appended
    to, which keeps a point appended before a later statement of the [try]
    raised. *)
Definition index_record (E : env) (kd : str * application)
    (points : list point) : M (list point) :=
  let app_id := kd.1 in
  let job_id := default [] (jobID kd.2) in
  catch (build_point E app_id job_id kd.2)
    (fun pt =>
       let points' := points ++ [pt] in
       catch (mark_indexed E app_id)
         (fun _ => ret points')
         (fun e => mark_failed E app_id e >> ret points'))
    (fun e => mark_failed E app_id e >> ret points).

Fixpoint process_batch (E : env) (batch : list (str * application))
    (points : list point) : M (list point) :=
  match batch with
  | [] => ret points
  | kd :: rest =>
      let* points' := index_record E kd points in
      process_batch E rest points'
  end.

(** [qdrant.upsert(collection_name, points)]. *)
Definition upsert (E : env) (points : list point) : M unit :=
  call E (EvUpsert points).

(** The body of the [while] after the emptiness test. *)
Definition index_batch (E : env) (batch : list (str * application))
  : M unit :=
  let* points := process_batch E batch [] in
  (match points with
   | [] => ret tt
   | _ => upsert E points
   end) >>
  sleep.

(** [while True: ...], with [fuel] bounding the number of turns. *)
Fixpoint indexing_loop (E : env) (fuel : nat) : M unit :=
  match fuel with
  | O => diverge
  | S n =>
      let* pending_count := count_documents E in
      let* batch := find_batch E in
      match batch with
      | [] => ret tt
      | _ => index_batch E batch >> indexing_loop E n
      end
  end.

Definition resume_indexing_agent (E : env) (fuel : nat) : M unit :=
  init_resources E >>
  if negb (applications_configured E) then ret tt
  else if negb (qdrant_configured E) then ret tt
  else if negb (model_loaded E) then ret tt
  else indexing_loop E fuel.

(** ** Matching pipeline *)

(** [re.sub(r"\s+", " ", text)]: every run of whitespace becomes one
    space. *)
Fixpoint collapse_ws (s : str) : str :=
  match s with
  | [] => []
  | c :: s' =>
      if is_space c then
        match s' with
        | c' :: _ => if is_space c' then collapse_ws s'
                     else " "%char :: collapse_ws s'
        | [] => [" "%char]
        end
      else c :: collapse_ws s'
  end.

(** [soup_get_text E raw] stands for
    [BeautifulSoup(raw, "html.parser").get_text(separator=" ")]. *)
Definition clean_html (E : env) (raw_html : str) : str :=
  strip (collapse_ws (soup_get_text E raw_html)).

(** [max(scores)] on a non-empty list [x :: xs]: the running maximum is
    replaced only by a strictly greater item. *)
Definition py_max (x : float) (xs : list float) : float :=
  fold_left (fun cur y => if (cur <? y)%float then y else cur) xs x.

Definition SELECTION_FACTOR : float := 0.63%float.

(** ["selected" if score >= cutoff else "rejected"]. *)
Definition decide_status (cutoff score : float) : str :=
  if (cutoff <=? score)%float then lit "selected" else lit "rejected".

(** [companies.find({"aiFeaturesEnabled": True})]. *)
Definition find_companies (E : env) : M (list company) :=
  call E EvFindCompanies >>
  ret (filter (fun c => aiFeaturesEnabled c = Some (VBool true))
         (companies E)).

(** [job_statuses.find({"company_id": id, "jobStatus": "Open"})]. *)
Definition find_statuses (E : env) (company_id : str) : M (list job_status) :=
  call E (EvFindStatuses company_id) >>
  ret (filter (fun st => js_company_id st = company_id
                         ∧ jobStatus st = Some (VStr (lit "Open")))
         (job_statuses E)).

(** [jobs.find({"company_id": id, "status": status})]. *)
Definition find_jobs (E : env) (company_id status : str) : M (list job) :=
  call E (EvFindJobs company_id status) >>
  ret (filter (fun j => j_company_id j = company_id
                        ∧ j_status j = Some (VStr status))
         (jobs E)).

(** [job.get("description", "")], on which [.strip()] is then called. *)
Definition job_description (j : job) : M str :=
  match description j with
  | None => ret []
  | Some (VStr s) => ret s
  | Some _ => raise (Exn Agent (lit "object has no attribute 'strip'"))
  end.

(** [[r for r in search_results if r.payload.get("job_id") == job_id]]. *)
Fixpoint filter_by_job (job_id : str) (rs : list scored_point)
  : M (list scored_point) :=
  match rs with
  | [] => ret []
  | r :: rs' =>
      match sp_payload r with
      | None =>
          raise (Exn Agent (lit "'NoneType' object has no attribute 'get'"))
      | Some p =>
          let* kept := filter_by_job job_id rs' in
          ret (if bool_decide (p_job_id p = Some (VStr job_id))
               then r :: kept else kept)
      end
  end.

Definition empty_payload : payload :=
  {| p_application_id := None; p_job_id := None; p_resume_text := None |}.

(** One turn of [for result in search_results].  The collection has no
    [_get_id] attribute, so the filter is [{"_id": application_id}]. *)
Definition write_status (E : env) (cutoff : float) (r : scored_point)
  : M unit :=
  let payload := default empty_payload (sp_payload r) in
  match p_application_id payload, sp_score r with
  | Some application_id, Some score =>
      if truthy application_id
      then update_one E application_id (SetStatus (decide_status cutoff score))
      else ret tt
  | _, _ => ret tt
  end.

Fixpoint write_statuses (E : env) (cutoff : float) (rs : list scored_point)
  : M unit :=
  match rs with
  | [] => ret tt
  | r :: rs' => write_status E cutoff r >> write_statuses E cutoff rs'
  end.

(** [scores], [best_score], [cutoff] and the write loop (lines 288-306). *)
Definition select_and_write (E : env) (search_results : list scored_point)
  : M unit :=
  match omap sp_score search_results with
  | [] => ret tt
  | s0 :: scores =>
      let best_score := py_max s0 scores in
      let cutoff := (best_score * SELECTION_FACTOR)%float in
      write_statuses E cutoff search_results
  end.

(** The body of the per-job [try]. *)
Definition match_results (E : env) (job_id : str) (jd_vector : vector)
  : M unit :=
  call E (EvQuery jd_vector) >>
  let* search_results := filter_by_job job_id (query_points E jd_vector) in
  match search_results with
  | [] => ret tt
  | _ => select_and_write E search_results
  end.

(** One turn of [for job in open_jobs]. *)
Definition match_job (E : env) (j : job) : M unit :=
  let job_id := j_id j in
  let* job_description := job_description j in
  if falsy_str (strip job_description) then ret tt
  else
    let cleaned_description := clean_html E job_description in
    let* jd_vector := encode E cleaned_description in
    try_except (match_results E job_id jd_vector) (fun _ => ret tt).

Fixpoint for_each {A} (f : A → M unit) (xs : list A) : M unit :=
  match xs with
  | [] => ret tt
  | x :: xs' => f x >> for_each f xs'
  end.

(** One turn of [for company in ai_companies]. *)
Definition match_company (E : env) (c : company) : M unit :=
  let* open_status_doc := find_statuses E (c_id c) in
  match open_status_doc with
  | [] => ret tt
  | st :: _ =>
      let* open_jobs := find_jobs E (c_id c) (js_id st) in
      for_each (match_job E) open_jobs
  end.

(** Lines 250-311: the read of the companies and the loops over companies
    and jobs. *)
Definition match_companies (E : env) : M unit :=
  let* ai_companies := find_companies E in
  for_each (match_company E) ai_companies.

(** [db.get(name)] of lines 246-248.  [db] is the [Database] object of
    line 94, which has no method [get]: the attribute read gives the
    collection named "get", and calling a collection raises [TypeError]. *)
Definition NotCallable : exn :=
  Exn Agent
    (lit "'Collection' object is not callable. If you meant to call the 'get' method on a 'Database' object it is failing because no such method exists.").

Definition db_get (name : str) : M unit := raise NotCallable.

(** The store collection is set together with [db] (lines 94-95), so [db]
    is not [None] once the first test is passed. *)
Definition jd_matching_agent (E : env) : M unit :=
  init_resources E >>
  if negb (applications_configured E) then ret tt
  else if negb (qdrant_configured E) then ret tt
  else if negb (model_loaded E) then ret tt
  else
    db_get (lit "companies") >>
    db_get (lit "jobs") >>
    db_get (lit "job-statuses") >>
    match_companies E.

(** ** Trigger task (server.py) *)

Inductive agent_mode := Index | Matching | Both.

Record task_state := {
  agent_running : bool;
  last_run : option nat;
  last_error : option str;
}.

(** The [try] body of [_run_agent_task]. *)
Definition run_pipelines (E : env) (fuel : nat) (mode : agent_mode) : M unit :=
  (match mode with
   | Index | Both => resume_indexing_agent E fuel
   | Matching => ret tt
   end) >>
  (match mode with
   | Matching | Both => jd_matching_agent E
   | Index => ret tt
   end).

(** [_run_agent_task(agent_mode)]: [None] when the fuel given to the
    indexing loop runs out. *)
Definition _run_agent_task (E : env) (fuel : nat) (mode : agent_mode)
    (w : world) : option (task_state * world) :=
  match run_pipelines E fuel mode w with
  | (Ok _, w') =>
      Some ({| agent_running := false; last_run := Some (length (trace w'));
               last_error := None |}, w')
  | (Raise e, w') =>
      Some ({| agent_running := false; last_run := Some (length (trace w'));
               last_error := Some (exn_msg e) |}, w')
  | (Diverge, _) => None
  end.

(** ** Statements about the extractor and the poll *)


(** A field that is absent or holds a value Python treats as false. *)
Definition falsy_or_absent (o : option value) : Prop :=
  match o with
  | None => True
  | Some v => truthy v = false
  end.

(** A field that is absent, the boolean [False] or the string "False". *)
Definition unflagged (o : option value) : Prop :=
  o = None ∨ o = Some (VBool false) ∨ o = Some (VStr (lit "False")).

Definition status_open (d : application) : Prop :=
  resume_status d = Some (VStr (lit "open")).

(** Present and a string that starts with "http". *)
Definition url_shaped (o : option value) : Prop :=
  ∃ s, o = Some (VStr s) ∧ lit "http" `prefix_of` s.

(** The point was built from the record [kd]: the vector embeds the whole
    extracted text, the payload keeps its first 1500 characters. *)
Definition point_of_record (E : env) (kd : str * application) (pt : point)
  : Prop :=
  ∃ url text,
    resume kd.2 = Some (VStr url) ∧
    extract_text_from_s3 E url = inr text ∧
    model_encode E text = inr (pt_vector pt) ∧
    p_resume_text (pt_payload pt) = Some (VStr (take 1500 text)) ∧
    p_application_id (pt_payload pt) = Some (VStr kd.1) ∧
    pt_id pt = mongo_id_to_uuid E kd.1.

(** Eligibility as the specification words it. *)
Definition eligible_as_stated (d : application) : Prop :=
  status_open d ∧ falsy_or_absent (rag_uploaded d) ∧ url_shaped (resume d).

(** Eligibility as the poll's filter has it. *)
Definition eligible (d : application) : Prop :=
  status_open d ∧ unflagged (rag_uploaded d) ∧ url_shaped (resume d).

(** ** Statements about the indexing pipeline *)

(** The calls one turn of [for app in batch] can make. *)
Definition record_event (ev : event) : bool :=
  match ev with
  | EvEncode _ | EvUpdate _ (SetIndexed _) | EvUpdate _ (SetFailed _) => true
  | _ => false
  end.

Definition terminal (u : update) : bool :=
  match u with
  | SetIndexed _ | SetFailed _ => true
  | SetStatus _ => false
  end.

Definition done_status (d : application) : Prop :=
  resume_status d = Some (VStr (lit "indexed"))
  ∨ resume_status d = Some (VStr (lit "failed")).

(** Some call to the document store is set to fail. *)
Definition store_fault (E : env) : Prop :=
  ∃ n ev msg, store_event ev = true ∧ fault E n ev = Some msg.

(** [apps'] is [apps] after every document named in [ids] was marked
    "indexed" or "failed" and no other document changed. *)
Definition marked (ids : list str) (apps apps' : gmap str application)
  : Prop :=
  ∀ id,
    (id ∈ ids → ∀ d, apps !! id = Some d →
       ∃ d', apps' !! id = Some d' ∧ done_status d') ∧
    (id ∉ ids → apps' !! id = apps !! id) ∧
    (apps !! id = None → apps' !! id = None).

Definition no_store_fault (E : env) : Prop :=
  ∀ n ev, store_event ev = true → fault E n ev = None.

(** The flag-setting write of every point of [points] is among [evs]. *)
Definition built_in_batch (E : env) (batch : list (str * application))
    (evs : list event) (points : list point) : Prop :=
  Forall (λ pt, ∃ kd, kd ∈ batch ∧ point_of_record E kd pt
                ∧ ∃ t, EvUpdate (VStr kd.1) (SetIndexed t) ∈ evs) points.

(** The order the specification words: a write that sets the flag comes
    only after an upsert call. *)
Definition flag_after_upsert (evs : list event) : Prop :=
  ∀ i id t, evs !! i = Some (EvUpdate id (SetIndexed t)) →
    ∃ j points, j < i ∧ evs !! j = Some (EvUpsert points).

(** A computation that comes back, normally or with an exception, from
    every world. *)
Definition returns {A} (m : M A) : Prop := ∀ w, (m w).1 ≠ Diverge.

(** ** Statements about the matching pipeline *)

(** The write the selection rule asks for on one result: none without a
    score or a true application id, otherwise "selected" from the cutoff
    upwards and "rejected" below it. *)
Definition wanted_write (cutoff : float) (r : scored_point) : list event :=
  match sp_score r, sp_payload r with
  | Some score, Some p =>
      match p_application_id p with
      | Some a =>
          if truthy a
          then [EvUpdate a
                  (SetStatus (if (cutoff <=? score)%float
                              then lit "selected" else lit "rejected"))]
          else []
      | None => []
      end
  | _, _ => []
  end.

Definition status_writes (cutoff : float) (rs : list scored_point)
  : list event :=
  flat_map (wanted_write cutoff) rs.

(** ** Sample collaborators *)

Definition no_fault : nat → event → option str := fun _ _ => None.

(** A stand-in for the HTML parser on plain tag-and-text markup: the text
    between tags, pieces joined by one space. *)
Fixpoint text_pieces (in_tag : bool) (cur : str) (s : str) : list str :=
  match s with
  | [] => [reverse cur]
  | c :: s' =>
      if in_tag then
        if bool_decide (c = ">"%char) then text_pieces false [] s'
        else text_pieces true cur s'
      else if bool_decide (c = "<"%char)
           then reverse cur :: text_pieces true [] s'
           else text_pieces false (c :: cur) s'
  end.

Fixpoint join (sep : str) (l : list str) : str :=
  match l with
  | [] => []
  | [x] => x
  | x :: l' => x ++ sep ++ join sep l'
  end.

Definition sample_get_text (raw : str) : str :=
  join (lit " ")
    (filter (fun t => t ≠ []) (text_pieces false [] raw)).

(** Objects hold their own key as content; "broken.pdf" cannot be opened
    as a PDF; "text.pdf" has a text layer, and so has the first page of
    "damaged.pdf", whose second page cannot be read; the scan of "blank.pdf"
    is empty, the image "nbsp.png" reads as two no-break spaces and the
    image "long.png" as 2000 characters. *)
Definition sample_env : env := {|
  BATCH_SIZE := 10;
  S3_BUCKET := lit "resumes";
  init_error := None;
  s3_configured := true;
  applications_configured := true;
  qdrant_configured := true;
  model_loaded := true;
  mongo_id_to_uuid := fun id => lit "uuid5:" ++ id;
  s3_get_object := fun _ key => inr key;
  image_open := fun b => inr b;
  image_to_string := fun img =>
    if bool_decide (img = lit "blank.pdf") then inr (lit " ")
    else if bool_decide (img = lit "nbsp.png") then inr [nbsp; nbsp]
    else if bool_decide (img = lit "long.png")
         then inr (replicate 2000 "x"%char)
         else inr (lit "Jane Doe");
  fitz_open := fun b =>
    if bool_decide (b = lit "broken.pdf") then inl (lit "cannot open")
    else if bool_decide (b = lit "damaged.pdf")
         then inr [lit "page 1"; lit "page 2"]
         else inr [b];
  get_text := fun pg =>
    if bool_decide (pg = lit "text.pdf") then inr (lit "John Roe")
    else if bool_decide (pg = lit "page 1") then inr (lit "John Roe, ")
    else if bool_decide (pg = lit "page 2") then inl (lit "bad xref")
    else inr [];
  convert_from_bytes := fun b => inr [b];
  model_encode := fun text => inr [1%float];
  soup_get_text := sample_get_text;
  fault := no_fault;
  natural_rank := fun _ => 0;
  query_points := fun _ => [];
  companies := [];
  job_statuses := [];
  jobs := [];
|}.

Definition mk_application (url : str) (status : str) (flag : option value)
  : application :=
  {| resume := Some (VStr url); resume_status := Some (VStr status);
     rag_uploaded := flag; jobID := Some (lit "j1"); error := None;
     indexed_at := None |}.

Definition flag_string_False : application :=
  mk_application (lit "https://cv/a.pdf") (lit "open")
    (Some (VStr (lit "False"))).

(** A one-record batch whose resume reads as 2000 characters, and the
    point it yields. *)
Definition long_batch : list (str * application) :=
  [(lit "a1",
    mk_application (lit "https://cv.s3.amazonaws.com/long.png") (lit "open")
      None)].

Definition long_point : point :=
  {| pt_id := lit "uuid5:a1";
     pt_vector := [1%float];
     pt_payload :=
       {| p_application_id := Some (VStr (lit "a1"));
          p_job_id := Some (VStr (lit "j1"));
          p_resume_text := Some (VStr (replicate 1500 "x"%char)) |} |}.

Definition long_store : gmap str application := list_to_map long_batch.

Definition with_fault (f : nat → event → option str) (E : env) : env := {|
  BATCH_SIZE := BATCH_SIZE E;
  S3_BUCKET := S3_BUCKET E;
  init_error := init_error E;
  s3_configured := s3_configured E;
  applications_configured := applications_configured E;
  qdrant_configured := qdrant_configured E;
  model_loaded := model_loaded E;
  mongo_id_to_uuid := mongo_id_to_uuid E;
  s3_get_object := s3_get_object E;
  image_open := image_open E;
  image_to_string := image_to_string E;
  fitz_open := fitz_open E;
  get_text := get_text E;
  convert_from_bytes := convert_from_bytes E;
  model_encode := model_encode E;
  soup_get_text := soup_get_text E;
  fault := f;
  natural_rank := natural_rank E;
  query_points := query_points E;
  companies := companies E;
  job_statuses := job_statuses E;
  jobs := jobs E;
|}.

(** The vector index refuses every upsert. *)
Definition upsert_down : env :=
  with_fault (fun _ ev => match ev with
                          | EvUpsert _ => Some (lit "connection refused")
                          | _ => None
                          end) sample_env.

(** MongoDB was never configured. *)
Definition no_store : env := {|
  BATCH_SIZE := 10;
  S3_BUCKET := lit "resumes";
  init_error := None;
  s3_configured := true;
  applications_configured := false;
  qdrant_configured := true;
  model_loaded := true;
  mongo_id_to_uuid := mongo_id_to_uuid sample_env;
  s3_get_object := s3_get_object sample_env;
  image_open := image_open sample_env;
  image_to_string := image_to_string sample_env;
  fitz_open := fitz_open sample_env;
  get_text := get_text sample_env;
  convert_from_bytes := convert_from_bytes sample_env;
  model_encode := model_encode sample_env;
  soup_get_text := sample_get_text;
  fault := no_fault;
  natural_rank := fun _ => 0;
  query_points := fun _ => [];
  companies := [];
  job_statuses := [];
  jobs := [];
|}.


Definition mk_result (application_id job_id : str) (score : float)
  : scored_point :=
  {| sp_payload :=
       Some {| p_application_id := Some (VStr application_id);
               p_job_id := Some (VStr job_id);
               p_resume_text := None |};
     sp_score := Some score |}.

(** Four indexed resumes of job "j1" with the scores of the worked
    example. *)
Definition sample_results : list scored_point :=
  [mk_result (lit "a1") (lit "j1") 0.90%float;
   mk_result (lit "a2") (lit "j1") 0.70%float;
   mk_result (lit "a3") (lit "j1") 0.60%float;
   mk_result (lit "a4") (lit "j1") 0.30%float].

(** A scored result of job "j1" whose payload names no application. *)
Definition unnamed_result : scored_point :=
  {| sp_payload :=
       Some {| p_application_id := None;
               p_job_id := Some (VStr (lit "j1"));
               p_resume_text := None |};
     sp_score := Some 0.90%float |}.

Definition mk_job (id description : str) : job :=
  {| j_id := id; j_company_id := lit "c1";
     j_status := Some (VStr (lit "s1"));
     description := Some (VStr description) |}.

(** One AI-enabled company with an "Open" status, the given open jobs and
    faults, and an index that answers every query with [sample_results]. *)
Definition matching_env (js : list job) (f : nat → event → option str)
  : env := {|
  BATCH_SIZE := 10;
  S3_BUCKET := lit "resumes";
  init_error := None;
  s3_configured := true;
  applications_configured := true;
  qdrant_configured := true;
  model_loaded := true;
  mongo_id_to_uuid := mongo_id_to_uuid sample_env;
  s3_get_object := s3_get_object sample_env;
  image_open := image_open sample_env;
  image_to_string := image_to_string sample_env;
  fitz_open := fitz_open sample_env;
  get_text := get_text sample_env;
  convert_from_bytes := convert_from_bytes sample_env;
  model_encode := model_encode sample_env;
  soup_get_text := sample_get_text;
  fault := f;
  natural_rank := fun _ => 0;
  query_points := fun _ => sample_results;
  companies := [{| c_id := lit "c1"; aiFeaturesEnabled := Some (VBool true) |}];
  job_statuses :=
    [{| js_id := lit "s1"; js_company_id := lit "c1";
        jobStatus := Some (VStr (lit "Open")) |}];
  jobs := js;
|}.

(** The write for application "a1" is refused. *)
Definition a1_write_fails : nat → event → option str :=
  fun _ ev =>
    match ev with
    | EvUpdate id _ =>
        if bool_decide (id = VStr (lit "a1")) then Some (lit "write refused")
        else None
    | _ => None
    end.

Definition start (apps : gmap str application) : world :=
  {| applications := apps; trace := [] |}.

(** ** Configuration helper *)

(** The double and the single quote character. *)
Definition dquote : ascii := ascii_of_nat 34.
Definition squote : ascii := ascii_of_nat 39.

(** [v.startswith(q) and v.endswith(q)] for a one-character [q]. *)
Definition quoted (q : ascii) (v : str) : bool :=
  startswith [q] v && endswith [q] v.

(** [v[1:-1]]. *)
Definition inner (v : str) : str := take (length v - 2) (drop 1 v).

(** [_getenv_strip(name, default)], given what the environment holds for
    [name]. *)
Definition _getenv_strip (value default : option str) : option str :=
  match (match value with Some v => Some v | None => default end) with
  | None => None
  | Some v =>
      let v := strip v in
      if quoted dquote v || quoted squote v
      then Some (strip (inner v))
      else Some v
  end.

(** ** Statements about text *)

Definition no_lead (s : str) : Prop :=
  match s with
  | [] => True
  | c :: _ => is_space c = false
  end.

(** Every whitespace character is a space that is followed by a character
    which is not whitespace, or by nothing. *)
Fixpoint single_spaced (s : str) : bool :=
  match s with
  | [] => true
  | c :: s' =>
      (if is_space c
       then bool_decide (c = " "%char)
            && match s' with
               | [] => true
               | c' :: _ => negb (is_space c')
               end
       else true)
      && single_spaced s'
  end.

(** The download, the image decoder, the rasterizer and the OCR engine
    never raise. *)
Definition readers_total (E : env) : Prop :=
  s3_configured E = true ∧
  (∀ b k, ∃ x, s3_get_object E b k = inr x) ∧
  (∀ b, ∃ x, image_open E b = inr x) ∧
  (∀ b, ∃ x, image_to_string E b = inr x) ∧
  (∀ b, ∃ x, convert_from_bytes E b = inr x).

(** ** Statements about what a pipeline touches *)








(** The job a query result belongs to, when its payload says so. *)
Definition result_job (r : scored_point) : option value :=
  match sp_payload r with
  | Some p => p_job_id p
  | None => None
  end.

(** The reads of the matching pipeline. *)
Definition read_event (ev : event) : bool :=
  match ev with
  | EvFindCompanies | EvFindStatuses _ | EvFindJobs _ _ => true
  | _ => false
  end.

(** [m] ends normally from every world. *)
Definition completes {A} (m : M A) : Prop := ∀ w, ∃ a, (m w).1 = Ok a.


(** ** The trigger endpoint (server.py) *)

(** [agent_mode not in ("index", "matching", "both")]. *)
Definition parse_mode (m : str) : option agent_mode :=
  if bool_decide (m = lit "index") then Some Index
  else if bool_decide (m = lit "matching") then Some Matching
  else if bool_decide (m = lit "both") then Some Both
  else None.

(** The answers of [/run-agent]: 202, 409 and 400. *)
Inductive response :=
| Started (mode : agent_mode)
| AlreadyRunning
| InvalidMode (m : str).

(** The module state of the server, the requests that passed the guard
    and have not yet had their mode checked, the background threads that
    have not yet finished, and the answers given so far. *)
Record server := {
  _agent_running : bool;
  _last_run : option nat;
  _last_error : option str;
  admitted : list (option str);
  threads : list agent_mode;
  responses : list response;
}.

Definition idle : server :=
  {| _agent_running := false; _last_run := None; _last_error := None;
     admitted := []; threads := []; responses := [] |}.

(** The atomic steps requests and threads interleave: the guarded test
    and set of [run_agent] for a request with the given [agent] parameter,
    the rest of [run_agent] for the [i]-th admitted request, and the
    [finally] of [_run_agent_task] for the [i]-th thread, which ended in
    state [st]. *)
Inductive action :=
| Guard (agent_param : option str)
| Check (i : nat)
| Finish (i : nat) (st : task_state).

Definition run_agent (AGENT : str) (a : action) (s : server) : server :=
  match a with
  | Guard p =>
      if _agent_running s
      then {| _agent_running := _agent_running s; _last_run := _last_run s;
              _last_error := _last_error s; admitted := admitted s;
              threads := threads s;
              responses := responses s ++ [AlreadyRunning] |}
      else {| _agent_running := true; _last_run := _last_run s;
              _last_error := _last_error s; admitted := admitted s ++ [p];
              threads := threads s; responses := responses s |}
  | Check i =>
      match admitted s !! i with
      | None => s
      | Some p =>
          let agent_mode := default AGENT p in
          match parse_mode agent_mode with
          | None =>
              {| _agent_running := false; _last_run := _last_run s;
                 _last_error := _last_error s;
                 admitted := delete i (admitted s); threads := threads s;
                 responses := responses s ++ [InvalidMode agent_mode] |}
          | Some mode =>
              {| _agent_running := _agent_running s; _last_run := _last_run s;
                 _last_error := _last_error s;
                 admitted := delete i (admitted s);
                 threads := threads s ++ [mode];
                 responses := responses s ++ [Started mode] |}
          end
      end
  | Finish i st =>
      match threads s !! i with
      | None => s
      | Some _ =>
          {| _agent_running := false; _last_run := last_run st;
             _last_error := last_error st; admitted := admitted s;
             threads := delete i (threads s); responses := responses s |}
      end
  end.

Definition serve (AGENT : str) (acts : list action) (s : server) : server :=
  fold_left (fun s a => run_agent AGENT a s) acts s.

(** [GET /status]. *)
Definition status (AGENT : str) (s : server)
  : bool * option nat * option str * str :=
  (_agent_running s, _last_run s, _last_error s, AGENT).

(** At most one request or thread holds the guard, and the flag is set
    exactly when one does. *)
Definition guarded (s : server) : Prop :=
  length (admitted s) + length (threads s) ≤ 1 ∧
  (_agent_running s = true ↔ length (admitted s) + length (threads s) = 1).

(** ** Start-up: [init_resources] in full *)

Module Startup.

(** Which groups of settings are present: the four AWS settings, the
    MongoDB URI, and the Qdrant URL with its key. *)
Record config := {
  aws_set : bool;
  mongo_set : bool;
  qdrant_set : bool;
}.

Inductive service_call :=
| MakeS3Client
| MakeMongoClient
| MakeQdrantClient
| CollectionExists
| CreateCollection
| LoadModel.

Global Instance service_call_eq_dec : EqDecision service_call.
Proof. solve_decision. Defined.

(** The module globals (true when the handle is set), whether the
    collection exists in the index, and the calls made so far. *)
Record state := {
  s3 : bool;
  mongo : bool;
  qdrant : bool;
  model : bool;
  collection : bool;
  calls : list service_call;
}.

(** A step of start-up: the message of the exception it raised, if any,
    and the state it left. *)
Definition step := state → option str * state.

Definition andthen (a b : step) : step := fun s =>
  match a s with
  | (Some msg, s') => (Some msg, s')
  | (None, s') => b s'
  end.

Definition skip : step := fun s => (None, s).

(** A call to a service; the [n]-th call of the process fails with [m]
    when [fails n c = Some m]. *)
Definition attempt (fails : nat → service_call → option str)
    (c : service_call) : step := fun s =>
  (fails (length (calls s)) c,
   {| s3 := s3 s; mongo := mongo s; qdrant := qdrant s; model := model s;
      collection := collection s; calls := calls s ++ [c] |}).

Definition set_s3 : step := fun s =>
  (None, {| s3 := true; mongo := mongo s; qdrant := qdrant s;
            model := model s; collection := collection s;
            calls := calls s |}).

Definition set_mongo : step := fun s =>
  (None, {| s3 := s3 s; mongo := true; qdrant := qdrant s;
            model := model s; collection := collection s;
            calls := calls s |}).

Definition set_qdrant : step := fun s =>
  (None, {| s3 := s3 s; mongo := mongo s; qdrant := true;
            model := model s; collection := collection s;
            calls := calls s |}).

Definition set_model : step := fun s =>
  (None, {| s3 := s3 s; mongo := mongo s; qdrant := qdrant s;
            model := true; collection := collection s;
            calls := calls s |}).

Definition set_collection : step := fun s =>
  (None, {| s3 := s3 s; mongo := mongo s; qdrant := qdrant s;
            model := model s; collection := true; calls := calls s |}).

(** [try: a  except Exception: pass]. *)
Definition swallow (a : step) : step := fun s => (None, (a s).2).

Definition init_resources (C : config)
    (fails : nat → service_call → option str) : step :=
  andthen
    (fun s => if negb (s3 s) && aws_set C
              then andthen (attempt fails MakeS3Client) set_s3 s
              else skip s)
  (andthen
    (fun s => if negb (mongo s) && mongo_set C
              then andthen (attempt fails MakeMongoClient) set_mongo s
              else skip s)
  (andthen
    (fun s => if negb (qdrant s) && qdrant_set C
              then andthen (attempt fails MakeQdrantClient)
                     (andthen set_qdrant
                        (andthen (attempt fails CollectionExists)
                           (fun s' => if negb (collection s')
                                      then andthen
                                             (attempt fails CreateCollection)
                                             set_collection s'
                                      else skip s'))) s
              else skip s)
    (fun s => if negb (model s)
              then swallow (andthen (attempt fails LoadModel) set_model) s
              else skip s))).

(** Start-up called once more after each call of [runs] went by. *)
Fixpoint repeat_init (C : config)
    (runs : list (nat → service_call → option str)) (s : state) : state :=
  match runs with
  | [] => s
  | fails :: runs' => repeat_init C runs' (init_resources C fails s).2
  end.

Definition fresh : state :=
  {| s3 := false; mongo := false; qdrant := false; model := false;
     collection := false; calls := [] |}.

(** Only the collection check fails. *)
Definition check_fails : nat → service_call → option str :=
  fun _ c => if decide (c = CollectionExists)
             then Some (lit "timed out") else None.

Definition all_set : config :=
  {| aws_set := true; mongo_set := true; qdrant_set := true |}.

End Startup.


(** After start-up, the store collection, the index client or the model
    is missing. *)
Definition collaborator_missing (E : env) : Prop :=
  applications_configured E = false ∨ qdrant_configured E = false
  ∨ model_loaded E = false.

(** Every write among [evs] is a write of "rejected". *)
Definition all_rejected (evs : list event) : Prop :=
  Forall (λ ev, ∃ a, ev = EvUpdate a (SetStatus (lit "rejected"))) evs.

(** ** A backlog larger than a batch *)




(** * Properties *)

(** ** Text search and splitting *)

Lemma startswith_true (p s : str) :
  startswith p s = true ↔ ∃ b, s = p ++ b.
Proof.
  unfold startswith. rewrite bool_decide_eq_true. reflexivity.
Qed.

Lemma find_sep_Some (sep s a b : str) :
  find_sep sep s = Some (a, b) → occurs_at sep s a b.
Proof.
  revert a b. induction s as [|c s IH]; intros a b; simpl; [done|].
  destruct (startswith sep (c :: s)) eqn:Hp.
  - intros [= <- <-]. apply startswith_true in Hp as [t Ht].
    unfold occurs_at. rewrite Ht at 1. simpl. rewrite Ht, drop_app_length. done.
  - destruct (find_sep sep s) as [[a0 b0]|]; [|done].
    intros [= <- <-]. unfold occurs_at in *. simpl. f_equal. by apply IH.
Qed.

Lemma find_sep_first (sep s a b a' b' : str) :
  find_sep sep s = Some (a, b) → occurs_at sep s a' b' → length a ≤ length a'.
Proof.
  revert a b a' b'. induction s as [|c s IH]; intros a b a' b'; simpl; [done|].
  destruct (startswith sep (c :: s)) eqn:Hp.
  - intros [= <- <-] _. simpl. lia.
  - destruct (find_sep sep s) as [[a0 b0]|] eqn:Hf; [|done].
    intros [= <- <-] Ho. destruct a' as [|c' a'].
    + exfalso. unfold occurs_at in Ho. simpl in Ho.
      assert (startswith sep (c :: s) = true) as Ht
        by (apply startswith_true; eauto).
      congruence.
    + unfold occurs_at in Ho. simpl in Ho. injection Ho as -> Ho.
      simpl. apply le_n_S. eapply IH; [done|exact Ho].
Qed.

Lemma find_sep_None (sep s : str) :
  sep ≠ [] → find_sep sep s = None → ¬ occurs sep s.
Proof.
  intros Hne. induction s as [|c s IH]; simpl.
  - intros _ (a & b & Ho). unfold occurs_at in Ho.
    symmetry in Ho. apply app_eq_nil in Ho as [_ Ho].
    apply app_eq_nil in Ho as [Ho _]. done.
  - destruct (startswith sep (c :: s)) eqn:Hp; [done|].
    destruct (find_sep sep s) as [[a0 b0]|] eqn:Hf; [done|].
    intros _ (a & b & Ho). destruct a as [|c' a].
    + assert (startswith sep (c :: s) = true) as Ht
        by (apply startswith_true; eauto).
      congruence.
    + unfold occurs_at in Ho. simpl in Ho. injection Ho as -> Ho.
      apply IH; [done|]. by exists a, b.
Qed.

Lemma split_from_no_occurrence (fuel : nat) (sep s : str) :
  ¬ occurs sep s → split_from fuel sep s = [s].
Proof.
  intros Hn. destruct fuel as [|n]; simpl; [done|].
  destruct (find_sep sep s) as [[a b]|] eqn:Hf; [|done].
  exfalso. apply Hn. exists a, b. by apply find_sep_Some.
Qed.

Lemma last_piece_cons (x : str) (l : list str) :
  l ≠ [] → last_piece (x :: l) = last_piece l.
Proof. unfold last_piece. destruct l; [done|reflexivity]. Qed.

Lemma split_from_nonempty (fuel : nat) (sep s : str) :
  split_from fuel sep s ≠ [].
Proof.
  destruct fuel as [|n]; simpl; [done|].
  destruct (find_sep sep s) as [[a b]|]; done.
Qed.

(** Two occurrences of an unbordered separator do not overlap. *)
Lemma occurrences_apart (sep s a1 b1 a b : str) :
  unbordered sep →
  occurs_at sep s a1 b1 → occurs_at sep s a b →
  length a1 < length a → length a1 + length sep ≤ length a.
Proof.
  intros Hu H1 H2 Hlt. unfold occurs_at in *.
  destruct (decide (length a1 + length sep ≤ length a)) as [|Hov]; [done|].
  exfalso. set (d := length a - length a1).
  assert (0 < d < length sep) as Hd by (unfold d; lia).
  apply (Hu d Hd).
  assert (sep ++ b1 = drop (length a1) a ++ sep ++ b) as He.
  { rewrite <- (drop_app_length a1 (sep ++ b1)), <- H1, H2.
    rewrite drop_app_le by lia. done. }
  assert (length (drop (length a1) a) = d) as Hx
    by (rewrite length_drop; done).
  assert (sep = drop (length a1) a ++ take (length sep - d) sep) as Hs.
  { rewrite <- (take_app_length sep b1) at 1. rewrite He.
    rewrite take_app_ge by lia. rewrite Hx.
    rewrite take_app_le by lia. done. }
  rewrite Hs at 1. rewrite <- Hx at 1. by rewrite drop_app_length.
Qed.

Lemma unborderedb_correct (sep : str) :
  unborderedb sep = true → unbordered sep.
Proof.
  unfold unborderedb, unbordered. rewrite forallb_forall.
  intros H d Hd. specialize (H d).
  rewrite negb_true_iff, bool_decide_eq_false in H.
  apply H. apply in_seq. lia.
Qed.

Lemma split_from_last (sep : str) :
  sep ≠ [] → unbordered sep →
  ∀ fuel s a b, length s ≤ fuel → last_occurrence sep s a b →
    last_piece (split_from fuel sep s) = b.
Proof.
  intros Hne Hu. induction fuel as [|n IH]; intros s a b Hlen [Ho Hlast].
  - exfalso. unfold occurs_at in Ho. subst s.
    rewrite !length_app in Hlen. destruct sep; [done|simpl in Hlen; lia].
  - simpl. destruct (find_sep sep s) as [[a1 b1]|] eqn:Hf.
    2:{ exfalso. eapply find_sep_None; eauto. by exists a, b. }
    pose proof (find_sep_Some _ _ _ _ Hf) as Ho1.
    pose proof (find_sep_first _ _ _ _ _ _ Hf Ho) as Hle.
    rewrite last_piece_cons by apply split_from_nonempty.
    assert (0 < length sep) as Hsep by (destruct sep; [done|simpl; lia]).
    destruct (decide (length a1 = length a)) as [Heq|Hneq].
    + unfold occurs_at in Ho, Ho1. rewrite Ho in Ho1.
      apply app_inj_1 in Ho1 as [-> Ho1]; [|done].
      apply app_inv_head in Ho1 as ->.
      rewrite split_from_no_occurrence; [done|].
      intros (x & y & Hxy). unfold occurs_at in Hxy.
      specialize (Hlast (a1 ++ sep ++ x) y).
      rewrite !length_app in Hlast. unfold occurs_at in Hlast.
      rewrite Ho, Hxy, <- !app_assoc in Hlast.
      specialize (Hlast eq_refl). lia.
    + assert (length a1 + length sep ≤ length a) as Hap
        by (eapply occurrences_apart; eauto; lia).
      unfold occurs_at in Ho, Ho1.
      assert (b1 = drop (length a1 + length sep) a ++ sep ++ b) as Hb1.
      { rewrite <- (drop_app_length (a1 ++ sep) b1).
        rewrite <- app_assoc, <- Ho1, Ho, length_app.
        rewrite drop_app_le by lia. done. }
      assert (a = a1 ++ sep ++ drop (length a1 + length sep) a) as Ha.
      { rewrite <- (take_drop (length a1 + length sep) a) at 1.
        rewrite app_assoc. f_equal.
        rewrite <- (take_app_le a (sep ++ b)) by lia.
        rewrite <- Ho, Ho1, app_assoc, <- length_app.
        by rewrite take_app_length. }
      apply (IH b1 (drop (length a1 + length sep) a) b).
      * rewrite Ho1, !length_app in Hlen. lia.
      * split; [exact Hb1|].
        intros a' b' Ho'. unfold occurs_at in Ho'.
        specialize (Hlast (a1 ++ sep ++ a') b').
        unfold occurs_at in Hlast.
        rewrite Ho1, Ho', <- !app_assoc in Hlast.
        specialize (Hlast eq_refl).
        rewrite !length_app in Hlast. rewrite length_drop. lia.
Qed.

Lemma last_occurrence_intro (sep s a b : str) :
  unbordered sep → occurs_at sep s a b → ¬ occurs sep b →
  last_occurrence sep s a b.
Proof.
  intros Hu Ho Hn. split; [done|]. intros a' b' Ho'.
  destruct (decide (length a' ≤ length a)) as [|Hgt]; [done|].
  exfalso. apply Hn.
  assert (length a + length sep ≤ length a') as Hap
    by (eapply occurrences_apart; eauto; lia).
  unfold occurs_at in Ho, Ho'.
  exists (drop (length a + length sep) a'), b'. unfold occurs_at.
  rewrite <- (drop_app_length (a ++ sep) b).
  rewrite <- app_assoc, <- Ho, Ho', length_app.
  rewrite drop_app_le by lia. done.
Qed.

Lemma MARKER_unbordered : unbordered MARKER.
Proof. apply unborderedb_correct. vm_compute. reflexivity. Qed.

Lemma MARKER_nonempty : MARKER ≠ [].
Proof. discriminate. Qed.

(** ** Key derivation *)

(** C10.  [extract_s3_key] is total; on a string without the marker
    ".amazonaws.com/" it returns the string unchanged (hence a non-empty key
    for a non-empty input), and otherwise it returns what follows the last
    occurrence of the marker. *)
Theorem extract_s3_key_spec (url : str) :
  (¬ occurs MARKER url →
     extract_s3_key url = url ∧ (url ≠ [] → extract_s3_key url ≠ [])) ∧
  (∀ a b, last_occurrence MARKER url a b → extract_s3_key url = b).
Proof.
  unfold extract_s3_key, py_split. split.
  - intros Hn. rewrite split_from_no_occurrence by done. done.
  - intros a b Hl.
    apply (split_from_last MARKER MARKER_nonempty MARKER_unbordered
             (length url) url a b); [lia|done].
Qed.

Lemma extract_s3_key_spec_witness :
  extract_s3_key (lit "resumes/cv.pdf") = lit "resumes/cv.pdf" ∧
  extract_s3_key
    (lit "https://cv.s3.amazonaws.com/a.amazonaws.com/resumes/cv.pdf")
  = lit "resumes/cv.pdf".
Proof.
  split.
  - apply (proj1 (extract_s3_key_spec (lit "resumes/cv.pdf"))).
    apply find_sep_None; [discriminate|vm_compute; reflexivity].
  - apply (proj2 (extract_s3_key_spec _)
             (lit "https://cv.s3.amazonaws.com/a") (lit "resumes/cv.pdf")).
    apply last_occurrence_intro.
    + apply MARKER_unbordered.
    + vm_compute. reflexivity.
    + apply find_sep_None; [discriminate|vm_compute; reflexivity].
Defined.

(** ** Extractor *)

Lemma falsy_str_nil (s : str) : falsy_str s = true ↔ s = [].
Proof. destruct s; simpl; split; congruence. Qed.





Lemma lstrip_nil (s : str) : lstrip s = [] ↔ forallb is_space s = true.
Proof.
  induction s as [|c s IH]; simpl; [done|].
  by destruct (is_space c).
Qed.

Lemma lstrip_head (s : str) :
  match lstrip s with [] => True | c :: _ => is_space c = false end.
Proof.
  induction s as [|c s IH]; simpl; [done|].
  destruct (is_space c) eqn:Hc; [done|]. exact Hc.
Qed.

(** [strip] leaves nothing exactly of a text that is empty or made of
    whitespace only. *)
Lemma strip_nil (s : str) : strip s = [] ↔ forallb is_space s = true.
Proof.
  rewrite <- lstrip_nil. unfold strip, rstrip. split.
  - intros H. apply (f_equal reverse) in H.
    rewrite reverse_involutive in H.
    change (reverse []) with (@nil ascii) in H.
    apply lstrip_nil in H.
    pose proof (lstrip_head s) as Hh.
    destruct (lstrip s) as [|c t]; [done|].
    assert (is_space c = true) as Hc; [|congruence].
    apply (proj1 (forallb_forall _ _) H).
    apply list_elem_of_In, elem_of_reverse, list_elem_of_here.
  - by intros ->.
Qed.



(** ** The poll of the indexing pipeline *)

Lemma regex_http_true (o : option value) :
  from_option regex_http false o = true ↔ url_shaped o.
Proof.
  unfold url_shaped. destruct o as [[| | |s]|]; simpl;
    try (split; [done|intros (s0 & [=] & _)]).
  unfold startswith. rewrite bool_decide_eq_true. split.
  - intros H. by exists s.
  - intros (s0 & [= <-] & H). done.
Qed.

Lemma indexing_query_eligible (d : application) :
  indexing_query d = true ↔ eligible d.
Proof.
  unfold indexing_query, eligible, status_open, unflagged.
  rewrite !andb_true_iff, !orb_true_iff, !bool_decide_eq_true.
  rewrite regex_http_true. tauto.
Qed.

Lemma elem_of_limit {A} (n : Z) (l : list A) (x : A) :
  x ∈ limit n l → x ∈ l.
Proof.
  unfold limit. destruct (n =? 0)%Z; [done|].
  intros H. rewrite <- (take_drop (Z.abs_nat n) l). apply elem_of_app. by left.
Qed.

Lemma elem_of_pending (apps : gmap str application) (id : str)
    (d : application) :
  (id, d) ∈ pending apps ↔ apps !! id = Some d ∧ indexing_query d = true.
Proof.
  unfold pending. rewrite list_elem_of_filter, elem_of_map_to_list. simpl.
  tauto.
Qed.

Lemma natural_order_perm (E : env) (docs : list (str * application)) :
  natural_order E docs ≡ₚ docs.
Proof. unfold natural_order. apply merge_sort_Permutation. Qed.

Lemma elem_of_natural_order (E : env) (docs : list (str * application))
    (kd : str * application) :
  kd ∈ natural_order E docs ↔ kd ∈ docs.
Proof. by rewrite natural_order_perm. Qed.


Lemma call_inv (E : env) (ev : event) (w w' : world) (r : outcome unit) :
  call E ev w = (r, w') →
  w' = log ev w ∧
  (r = Ok tt ∧ fault E (length (trace w)) ev = None
   ∨ ∃ msg, r = Raise (Exn (origin_of ev) msg)
            ∧ fault E (length (trace w)) ev = Some msg).
Proof.
  unfold call. destruct (fault E _ ev) as [msg|]; intros [= <- <-].
  - split; [done|]. right. by exists msg.
  - split; [done|]. by left.
Qed.

Lemma find_batch_inv (E : env) (w w' : world)
    (batch : list (str * application)) :
  find_batch E w = (Ok batch, w') →
  w' = log EvFind w ∧
  batch = limit (BATCH_SIZE E) (natural_order E (pending (applications w))).
Proof.
  unfold find_batch, bind. destruct (call E EvFind w) as [r w1] eqn:Hc.
  apply call_inv in Hc as [-> [[-> _]|(msg & -> & _)]]; [|done].
  intros [= <- <-]. done.
Qed.

(** C5 (as amended).  The poll's filter holds of a document exactly when
    its status is "open", its flag is absent, the boolean false or the
    string "False", and its resume is a string starting with "http"; every
    document of a fetched batch is a stored document of that kind. *)
Theorem indexing_query_spec (E : env) (w : world) :
  (∀ d, indexing_query d = true ↔ eligible d) ∧
  (∀ batch w', find_batch E w = (Ok batch, w') →
     ∀ id d, (id, d) ∈ batch →
       applications w !! id = Some d ∧ eligible d).
Proof.
  split; [apply indexing_query_eligible|].
  intros batch w' Hf id d Hin. apply find_batch_inv in Hf as [_ ->].
  apply elem_of_limit, elem_of_natural_order, elem_of_pending
    in Hin as [Hl Hq].
  split; [done|]. by apply indexing_query_eligible.
Qed.

Lemma indexing_query_spec_witness :
  eligible (mk_application (lit "https://cv/a.pdf") (lit "open") None).
Proof.
  pose proof (indexing_query_spec sample_env
    (start {[ lit "a1" :=
                mk_application (lit "https://cv/a.pdf") (lit "open") None ]}))
    as [_ H].
  refine (proj2 (H _ _ eq_refl (lit "a1") _ _)).
  vm_compute. apply list_elem_of_here.
Defined.

(** C5 (as stated) fails: a document whose flag is the string "False", a
    true value for Python, is fetched. *)
Lemma indexing_query_truthy_flag :
  ¬ (indexing_query flag_string_False = true
     ↔ eligible_as_stated flag_string_False).
Proof.
  intros [H _]. destruct (H eq_refl) as (_ & Hf & _). discriminate Hf.
Qed.

(** ** One record of a batch *)

Lemma update_one_inv (E : env) (id : value) (u : update) (w w' : world)
    (r : outcome unit) :
  update_one E id u w = (r, w') →
  trace w' = trace w ++ [EvUpdate id u] ∧
  (r = Ok tt ∧
   applications w' =
     match id with
     | VStr k => alter (apply_update u) k (applications w)
     | _ => applications w
     end
   ∨ (∃ msg, r = Raise (Exn DocumentStore msg)
             ∧ fault E (length (trace w)) (EvUpdate id u) = Some msg)
     ∧ applications w' = applications w).
Proof.
  unfold update_one, bind.
  destruct (call E (EvUpdate id u) w) as [r0 w0] eqn:Hc.
  apply call_inv in Hc as [-> [[-> _]|(msg & -> & Hf)]].
  - destruct id; intros [= <- <-]; simpl; split; try done; by left.
  - intros [= <- <-]. simpl. split; [done|]. right. split; [|done].
    by exists msg.
Qed.

Lemma encode_inv (E : env) (text : str) (w w' : world) (r : outcome vector) :
  encode E text w = (r, w') →
  w' = log (EvEncode text) w ∧
  r = match model_encode E text with
      | inl msg => Raise (Exn Embedder msg)
      | inr v => Ok v
      end.
Proof.
  unfold encode, bind, lift_result. simpl.
  destruct (model_encode E text); intros [= <- <-]; done.
Qed.

Lemma build_point_inv (E : env) (app_id job_id : str) (app : application)
    (w w' : world) (r : outcome point) :
  build_point E app_id job_id app w = (r, w') →
  applications w' = applications w ∧
  (∃ evs, trace w' = trace w ++ evs ∧ Forall (λ ev, record_event ev = true) evs) ∧
  match r with
  | Ok pt => point_of_record E (app_id, app) pt
             ∧ p_job_id (pt_payload pt) = Some (VStr job_id)
  | Raise _ => True
  | Diverge => False
  end.
Proof.
  unfold build_point, bind, resume_url.
  assert (∃ evs, trace w = trace w ++ evs
                 ∧ Forall (λ ev, record_event ev = true) evs) as Hnil
    by (exists []; by rewrite app_nil_r).
  destruct (resume app) as [[| | |url]|] eqn:Hr; simpl;
    try (intros [= <- <-]; done).
  destruct (extract_text_from_s3 E url) as [e|text] eqn:He; simpl;
    [intros [= <- <-]; done|].
  destruct (encode E text w) as [r0 w0] eqn:Hc.
  apply encode_inv in Hc as [-> Hr0].
  assert (∃ evs, trace (log (EvEncode text) w) = trace w ++ evs
                 ∧ Forall (λ ev, record_event ev = true) evs) as Hone
    by (exists [EvEncode text]; split; [done|by constructor]).
  destruct (model_encode E text) as [m|v] eqn:Hm; subst r0.
  - intros [= <- <-]. done.
  - intros [= <- <-]. split; [done|]. split; [done|]. split; [|done].
    exists url, text. simpl. done.
Qed.

Lemma mark_failed_inv (E : env) (id : str) (e : exn) (w w' : world)
    (r : outcome unit) :
  mark_failed E id e w = (r, w') →
  trace w' = trace w ++ [EvUpdate (VStr id) (SetFailed (exn_msg e))] ∧
  (r = Ok tt ∧
   applications w' =
     alter (apply_update (SetFailed (exn_msg e))) id (applications w)
   ∨ (∃ e', r = Raise e') ∧ store_fault E).
Proof.
  unfold mark_failed. intros H.
  apply update_one_inv in H as [Ht [[-> Ha]|[(msg & -> & Hf) Ha]]].
  - split; [done|]. by left.
  - split; [done|]. right. split; [by eexists|].
    by exists (length (trace w)), (EvUpdate (VStr id) (SetFailed (exn_msg e))), msg.
Qed.

Lemma index_record_spec (E : env) (kd : str * application)
    (points : list point) (w w' : world) (r : outcome (list point)) :
  index_record E kd points w = (r, w') →
  ∃ evs, trace w' = trace w ++ evs ∧
    Forall (λ ev, record_event ev = true) evs ∧
    match r with
    | Ok points' =>
        (points' = points
         ∨ ∃ pt, points' = points ++ [pt] ∧ point_of_record E kd pt
                 ∧ ∃ t, EvUpdate (VStr kd.1) (SetIndexed t) ∈ evs) ∧
        ∃ u, terminal u = true ∧
             applications w' = alter (apply_update u) kd.1 (applications w)
    | Raise _ => store_fault E
    | Diverge => False
    end.
Proof.
  destruct kd as [id app]. unfold index_record, catch. simpl.
  destruct (build_point E id (default [] (jobID app)) app w) as [r0 w0] eqn:Hb.
  apply build_point_inv in Hb as (Ha0 & (evs0 & Ht0 & Hf0) & Hr0).
  destruct r0 as [pt|e0|]; [| |done].
  - destruct Hr0 as [Hpt _]. unfold mark_indexed, bind, now.
    destruct (update_one E (VStr id) (SetIndexed (length (trace w0))) w0)
      as [r1 w1] eqn:Hu.
    apply update_one_inv in Hu as [Ht1 [[-> Ha1]|[(msg & -> & Hf) Ha1]]].
    + intros [= <- <-].
      exists (evs0 ++ [EvUpdate (VStr id) (SetIndexed (length (trace w0)))]).
      split; [by rewrite Ht1, Ht0, app_assoc|].
      split; [apply Forall_app; split; [done|by constructor]|].
      split.
      * right. exists pt. split; [done|]. split; [done|].
        exists (length (trace w0)). apply elem_of_app. right.
        apply list_elem_of_here.
      * exists (SetIndexed (length (trace w0))). split; [done|].
        by rewrite Ha1, Ha0.
    + destruct (mark_failed E id (Exn DocumentStore msg) w1) as [r2 w2] eqn:Hm.
      apply mark_failed_inv in Hm as [Ht2 [[-> Ha2]|[[e' ->] Hsf]]];
        intros [= <- <-].
      * exists (evs0 ++ [EvUpdate (VStr id) (SetIndexed (length (trace w0)));
                         EvUpdate (VStr id) (SetFailed msg)]).
        split; [by rewrite Ht2, Ht1, Ht0, <- !app_assoc|].
        split; [apply Forall_app; split; [done|by repeat constructor]|].
        split.
        -- right. exists pt. split; [done|]. split; [done|].
           exists (length (trace w0)). apply elem_of_app. right.
           apply list_elem_of_here.
        -- exists (SetFailed msg). split; [done|].
           by rewrite Ha2, Ha1, Ha0.
      * exists (evs0 ++ [EvUpdate (VStr id) (SetIndexed (length (trace w0)));
                         EvUpdate (VStr id) (SetFailed msg)]).
        split; [by rewrite Ht2, Ht1, Ht0, <- !app_assoc|].
        split; [apply Forall_app; split; [done|by repeat constructor]|].
        done.
  - unfold bind.
    destruct (mark_failed E id e0 w0) as [r2 w2] eqn:Hm.
    apply mark_failed_inv in Hm as [Ht2 [[-> Ha2]|[[e' ->] Hsf]]];
      intros [= <- <-].
    + exists (evs0 ++ [EvUpdate (VStr id) (SetFailed (exn_msg e0))]).
      split; [by rewrite Ht2, Ht0, <- !app_assoc|].
      split; [apply Forall_app; split; [done|by repeat constructor]|].
      split; [by left|].
      exists (SetFailed (exn_msg e0)). split; [done|]. by rewrite Ha2, Ha0.
    + exists (evs0 ++ [EvUpdate (VStr id) (SetFailed (exn_msg e0))]).
      split; [by rewrite Ht2, Ht0, <- !app_assoc|].
      split; [apply Forall_app; split; [done|by repeat constructor]|].
      done.
Qed.

(** ** A whole batch *)

Lemma terminal_done (u : update) (d : application) :
  terminal u = true → done_status (apply_update u d).
Proof. destruct u; [by left|by right|done]. Qed.

Lemma marked_nil (apps : gmap str application) : marked [] apps apps.
Proof. intros id. split; [by intros ?%elem_of_nil|done]. Qed.

Lemma marked_cons (u : update) (id : str) (ids : list str)
    (apps apps' : gmap str application) :
  terminal u = true →
  marked ids (alter (apply_update u) id apps) apps' →
  marked (id :: ids) apps apps'.
Proof.
  intros Hu Hm id0. destruct (Hm id0) as (H1 & H2 & H3).
  split; [|split].
  - intros Hin d Hd. destruct (decide (id0 ∈ ids)) as [Hi|Hi].
    + destruct (decide (id = id0)) as [->|Hne].
      * apply (H1 Hi (apply_update u d)). by rewrite lookup_alter_eq, Hd.
      * apply (H1 Hi d). by rewrite lookup_alter_ne.
    + apply elem_of_cons in Hin as [->|]; [|done].
      exists (apply_update u d). split; [|by apply terminal_done].
      by rewrite (H2 Hi), lookup_alter_eq, Hd.
  - intros Hn. apply not_elem_of_cons in Hn as [Hne Hn].
    by rewrite (H2 Hn), lookup_alter_ne.
  - intros Hd. apply H3. rewrite lookup_alter. case_decide; [|done].
    subst. by rewrite Hd.
Qed.

Lemma process_batch_spec (E : env) (batch : list (str * application)) :
  ∀ (points : list point) (w w' : world) (r : outcome (list point)),
  process_batch E batch points w = (r, w') →
  ∃ evs, trace w' = trace w ++ evs ∧
    Forall (λ ev, record_event ev = true) evs ∧
    match r with
    | Ok points' =>
        ∃ new, points' = points ++ new ∧
          Forall (λ pt, ∃ kd, kd ∈ batch ∧ point_of_record E kd pt
                        ∧ ∃ t, EvUpdate (VStr kd.1) (SetIndexed t) ∈ evs) new ∧
          marked batch.*1 (applications w) (applications w')
    | Raise _ => store_fault E
    | Diverge => False
    end.
Proof.
  induction batch as [|kd rest IH]; intros points w w' r; simpl.
  - intros [= <- <-]. exists []. rewrite app_nil_r. split; [done|].
    split; [done|]. exists []. rewrite app_nil_r.
    split; [done|]. split; [done|]. apply marked_nil.
  - unfold bind. destruct (index_record E kd points w) as [r1 w1] eqn:Hi.
    apply index_record_spec in Hi as (evs1 & Ht1 & Hf1 & Hr1).
    destruct r1 as [points1|e1|]; [| |done].
    + destruct Hr1 as [Hp1 (u & Hu & Ha1)]. intros Hrest.
      apply IH in Hrest as (evs2 & Ht2 & Hf2 & Hr2).
      exists (evs1 ++ evs2). split; [by rewrite Ht2, Ht1, app_assoc|].
      split; [by apply Forall_app|].
      destruct r as [points'|e|]; [| done |done].
      destruct Hr2 as (new & -> & Hnew & Hm).
      assert (Forall (λ pt, ∃ kd0, kd0 ∈ kd :: rest ∧ point_of_record E kd0 pt
                ∧ ∃ t, EvUpdate (VStr kd0.1) (SetIndexed t) ∈ evs1 ++ evs2) new)
        as Hnew'.
      { eapply Forall_impl; [exact Hnew|]. simpl.
        intros pt (kd0 & Hin & Hpt & t & Hev). exists kd0.
        split; [by apply elem_of_cons; right|]. split; [done|].
        exists t. apply elem_of_app. by right. }
      destruct Hp1 as [->|(pt & -> & Hpt & t & Hev)].
      * exists new. split; [done|]. split; [done|].
        rewrite Ha1 in Hm. by eapply marked_cons.
      * exists (pt :: new). split; [by rewrite <- app_assoc|].
        split; [|rewrite Ha1 in Hm; by eapply marked_cons].
        constructor; [|done]. exists kd. split; [apply list_elem_of_here|].
        split; [done|]. exists t. apply elem_of_app. by left.
    + intros [= <- <-]. exists evs1. done.
Qed.

(** C9.  Every point a batch produces was built from a record of the batch:
    its vector is the embedding of the whole extracted text and its payload
    text is the first 1500 characters of that text, a prefix of it. *)
Theorem resume_text_truncated (E : env) (batch : list (str * application))
    (w w' : world) (points : list point) :
  process_batch E batch [] w = (Ok points, w') →
  ∀ pt, pt ∈ points →
    ∃ kd url text,
      kd ∈ batch ∧ resume kd.2 = Some (VStr url) ∧
      extract_text_from_s3 E url = inr text ∧
      model_encode E text = inr (pt_vector pt) ∧
      p_resume_text (pt_payload pt) = Some (VStr (take 1500 text)) ∧
      take 1500 text `prefix_of` text ∧ length (take 1500 text) ≤ 1500.
Proof.
  intros Hp pt Hin.
  apply process_batch_spec in Hp as (evs & _ & _ & new & -> & Hnew & _).
  simpl in Hin. rewrite Forall_forall in Hnew.
  destruct (Hnew pt Hin) as (kd & Hkd & (url & text & Hr & He & Hm & Ht & _) & _).
  exists kd, url, text. repeat (split; [done|]). split.
  - apply prefix_take.
  - rewrite length_take. lia.
Qed.

Lemma resume_text_truncated_witness :
  ∃ kd url text,
    kd ∈ long_batch ∧ resume kd.2 = Some (VStr url) ∧
    extract_text_from_s3 sample_env url = inr text ∧
    model_encode sample_env text = inr (pt_vector long_point) ∧
    p_resume_text (pt_payload long_point) = Some (VStr (take 1500 text)) ∧
    take 1500 text `prefix_of` text ∧ length (take 1500 text) ≤ 1500.
Proof.
  refine (resume_text_truncated sample_env long_batch (start ∅)
            (process_batch sample_env long_batch [] (start ∅)).2
            [long_point] _ long_point _).
  - vm_compute. reflexivity.
  - apply list_elem_of_here.
Defined.

(** ** One turn of the indexing loop *)


(** C2 (as amended).  Within one turn of the loop the calls made for the
    records (embedding and status writes, the flag-setting write among
    them) come first and contain no upsert; all points built in the turn
    are then sent in one upsert call, or in none when no point was built,
    so the flag of a record is set before the upsert carrying its point. *)
Theorem index_batch_order (E : env) (batch : list (str * application))
    (w w' : world) :
  index_batch E batch w = (Ok tt, w') →
  ∃ evs points w0,
    process_batch E batch [] w = (Ok points, w0) ∧
    trace w0 = trace w ++ evs ∧
    Forall (λ ev, record_event ev = true) evs ∧
    built_in_batch E batch evs points ∧
    trace w' = trace w0 ++
                 (match points with
                  | [] => []
                  | _ => [EvUpsert points]
                  end) ++ [EvSleep].
Proof.
  unfold index_batch, bind.
  destruct (process_batch E batch [] w) as [r0 w0] eqn:Hp.
  pose proof Hp as Hp'.
  apply process_batch_spec in Hp' as (evs & Ht & Hf & Hr).
  destruct r0 as [points|e|]; [|done|done].
  destruct Hr as (new & Hnew & Hb & _). simpl in Hnew. subst new.
  intros H. exists evs, points, w0. do 4 (split; [done|]).
  destruct points as [|pt points]; [by injection H as <-|].
  unfold upsert in H.
  destruct (call E (EvUpsert (pt :: points)) w0) as [r1 w1] eqn:Hc.
  apply call_inv in Hc as [-> [[-> _]|(msg & -> & _)]]; [|done].
  injection H as <-. simpl. by rewrite <- app_assoc.
Qed.

Lemma index_batch_order_witness :
  ∃ evs points w0,
    process_batch sample_env long_batch [] (start long_store)
      = (Ok points, w0) ∧
    trace w0 = evs ∧
    Forall (λ ev, record_event ev = true) evs ∧
    built_in_batch sample_env long_batch evs points ∧
    trace (index_batch sample_env long_batch (start long_store)).2 =
      trace w0 ++ (match points with
                   | [] => []
                   | _ => [EvUpsert points]
                   end) ++ [EvSleep].
Proof.
  refine (index_batch_order sample_env long_batch (start long_store)
            (index_batch sample_env long_batch (start long_store)).2 _).
  vm_compute. reflexivity.
Defined.

(** C2 (as stated) fails: with one readable resume in the store, the write
    that sets the flag is the fourth call of the run and the upsert the
    fifth. *)
Lemma flag_set_before_upsert :
  trace (indexing_loop sample_env 2 (start long_store)).2 =
    [EvCount; EvFind;
     EvEncode (replicate 2000 "x"%char);
     EvUpdate (VStr (lit "a1")) (SetIndexed 3);
     EvUpsert [long_point];
     EvSleep; EvCount; EvFind]
  ∧ ¬ flag_after_upsert
        (trace (indexing_loop sample_env 2 (start long_store)).2).
Proof.
  assert (trace (indexing_loop sample_env 2 (start long_store)).2 =
    [EvCount; EvFind;
     EvEncode (replicate 2000 "x"%char);
     EvUpdate (VStr (lit "a1")) (SetIndexed 3);
     EvUpsert [long_point];
     EvSleep; EvCount; EvFind]) as Ht by (vm_compute; reflexivity).
  split; [exact Ht|]. rewrite Ht. intros H.
  destruct (H 3 (VStr (lit "a1")) 3 eq_refl) as (j & points & Hj & Hev).
  destruct j as [|[|[|j]]]; [discriminate Hev..|lia].
Qed.

(** ** Termination of the indexing loop *)



Lemma elem_of_pending_keys (apps : gmap str application) (id : str) :
  id ∈ (pending apps).*1 ↔
  ∃ d, apps !! id = Some d ∧ indexing_query d = true.
Proof.
  rewrite list_elem_of_fmap. split.
  - intros ([id' d] & -> & H). exists d. by apply elem_of_pending.
  - intros (d & H). exists (id, d). split; [done|]. by apply elem_of_pending.
Qed.

Lemma done_not_pending (d : application) :
  done_status d → indexing_query d = false.
Proof.
  intros Hd. destruct (indexing_query d) eqn:Hq; [|done].
  apply indexing_query_eligible in Hq as (Ho & _).
  unfold status_open in Ho. destruct Hd as [Hd|Hd]; rewrite Hd in Ho;
    discriminate Ho.
Qed.


Lemma no_store_fault_not (E : env) : no_store_fault E → ¬ store_fault E.
Proof.
  intros Hn (n & ev & msg & Hs & Hf). rewrite (Hn n ev Hs) in Hf. done.
Qed.

Lemma call_store_ok (E : env) (ev : event) (w : world) :
  no_store_fault E → store_event ev = true → call E ev w = (Ok tt, log ev w).
Proof. intros Hn Hs. unfold call. by rewrite (Hn _ _ Hs). Qed.






(** ** Coming back from the pipelines *)

Lemma returns_ret {A} (a : A) : returns (ret a).
Proof. intros w. done. Qed.

Lemma returns_raise {A} (e : exn) : returns (@raise A e).
Proof. intros w. done. Qed.

Lemma returns_bind {A B} (m : M A) (k : A → M B) :
  returns m → (∀ a, returns (k a)) → returns (bind m k).
Proof.
  intros Hm Hk w. unfold bind. specialize (Hm w).
  destruct (m w) as [[a|e|] w']; [apply Hk|done|done].
Qed.


Lemma returns_call (E : env) (ev : event) : returns (call E ev).
Proof. intros w. unfold call. by destruct (fault E _ ev). Qed.

Lemma returns_update_one (E : env) (id : value) (u : update) :
  returns (update_one E id u).
Proof.
  apply returns_bind; [apply returns_call|]. intros _ w. by destruct id.
Qed.




Lemma returns_filter_by_job (job_id : str) (rs : list scored_point) :
  returns (filter_by_job job_id rs).
Proof.
  induction rs as [|r rs IH]; simpl; [apply returns_ret|].
  destruct (sp_payload r); [|apply returns_raise].
  apply returns_bind; [done|]. intros kept. apply returns_ret.
Qed.

Lemma returns_write_statuses (E : env) (cutoff : float)
    (rs : list scored_point) :
  returns (write_statuses E cutoff rs).
Proof.
  induction rs as [|r rs IH]; simpl; [apply returns_ret|].
  apply returns_bind; [|done]. unfold write_status.
  destruct (p_application_id _); [|apply returns_ret].
  destruct (sp_score r); [|apply returns_ret].
  destruct (truthy _); [apply returns_update_one|apply returns_ret].
Qed.

Lemma returns_match_results (E : env) (job_id : str) (jd_vector : vector) :
  returns (match_results E job_id jd_vector).
Proof.
  unfold match_results. apply returns_bind; [apply returns_call|].
  intros _. apply returns_bind; [apply returns_filter_by_job|].
  intros [|r rs]; [apply returns_ret|]. unfold select_and_write.
  destruct (omap sp_score (r :: rs)); [apply returns_ret|].
  apply returns_write_statuses.
Qed.






(** ** The trigger task *)




(** ** Order of binary64 scores *)

Lemma SFcompare_antisym (x y : spec_float) :
  SFcompare y x = option_map CompOpp (SFcompare x y).
Proof.
  destruct x as [sx|sx| |sx mx ex], y as [sy|sy| |sy my ey]; simpl;
    try reflexivity; try (destruct sx; reflexivity);
    try (destruct sy; reflexivity); try (destruct sx, sy; reflexivity).
  destruct sx, sy; try reflexivity; simpl; f_equal;
    rewrite (Z.compare_antisym ex ey); destruct (ex ?= ey)%Z; simpl;
    try reflexivity; rewrite (Pos.compare_cont_antisym); simpl;
    try reflexivity.
  all: rewrite ?CompOpp_involutive; try reflexivity.
Qed.

Lemma SFcompare_trans (x y z : spec_float) (c1 c2 : comparison) :
  SFcompare x y = Some c1 → SFcompare y z = Some c2 →
  c1 ≠ Gt → c2 ≠ Gt →
  ∃ c3, SFcompare x z = Some c3 ∧ c3 ≠ Gt ∧ (c1 = Lt ∨ c2 = Lt → c3 = Lt).
Proof.
  destruct x as [sx|sx| |sx mx ex], y as [sy|sy| |sy my ey],
           z as [sz|sz| |sz mz ez]; simpl; try discriminate;
    try (destruct sx); try (destruct sy); try (destruct sz);
    intros [= <-] [= <-] H1 H2; try done;
    try (eexists; split; [reflexivity|split; [discriminate|intros [|]; done]]).
  all: change (Pos.compare_cont Eq ?a ?b) with (Pos.compare a b) in *.
  all: eexists; split; [reflexivity|].
  all: revert H1 H2.
  all: destruct (Z.compare_spec ex ey), (Z.compare_spec ey ez),
         (Z.compare_spec ex ez); try lia; try done;
       try (split; [discriminate|intros [|]; done]).
  all: destruct (Pos.compare_spec mx my), (Pos.compare_spec my mz),
         (Pos.compare_spec mx mz); simpl; try lia; try done;
       try (split; [discriminate|intros [|]; done]).
Qed.

Lemma SFcompare_None (x y : spec_float) :
  SFcompare x y = None → x = S754_nan ∨ y = S754_nan.
Proof.
  destruct x as [sx|sx| |sx mx ex], y as [sy|sy| |sy my ey]; simpl;
    try discriminate; intros _; (by left) || (by right).
Qed.

Lemma not_nan_spec (x : float) : is_nan x = false → Prim2SF x ≠ S754_nan.
Proof.
  unfold is_nan. intros H%negb_false_iff Hx.
  rewrite FloatAxioms.eqb_spec in H. unfold SFeqb in H. rewrite Hx in H. done.
Qed.

Lemma float_compare_Some (x y : float) :
  is_nan x = false → is_nan y = false →
  ∃ c, SFcompare (Prim2SF x) (Prim2SF y) = Some c.
Proof.
  intros Hx%not_nan_spec Hy%not_nan_spec.
  destruct (SFcompare (Prim2SF x) (Prim2SF y)) as [c|] eqn:Hc; [by exists c|].
  by apply SFcompare_None in Hc as [|].
Qed.

Lemma float_leb_refl (x : float) : is_nan x = false → (x <=? x)%float = true.
Proof.
  unfold is_nan. intros H%negb_false_iff. revert H.
  rewrite FloatAxioms.eqb_spec, FloatAxioms.leb_spec.
  unfold SFeqb, SFleb. by destruct (SFcompare _ _) as [[]|].
Qed.

Lemma float_eqb_leb (x y : float) :
  (x =? y)%float = true → (y <=? x)%float = true.
Proof.
  rewrite FloatAxioms.eqb_spec, FloatAxioms.leb_spec. unfold SFeqb, SFleb.
  rewrite (SFcompare_antisym (Prim2SF x) (Prim2SF y)).
  by destruct (SFcompare _ _) as [[]|].
Qed.

Lemma float_ltb_leb (x y : float) :
  (x <? y)%float = true → (x <=? y)%float = true.
Proof.
  rewrite FloatAxioms.ltb_spec, FloatAxioms.leb_spec. unfold SFltb, SFleb.
  by destruct (SFcompare _ _) as [[]|].
Qed.

Lemma float_not_ltb_leb (x y : float) :
  is_nan x = false → is_nan y = false →
  (x <? y)%float = false → (y <=? x)%float = true.
Proof.
  intros Hx Hy. destruct (float_compare_Some x y Hx Hy) as [c Hc].
  rewrite FloatAxioms.ltb_spec, FloatAxioms.leb_spec. unfold SFltb, SFleb.
  rewrite (SFcompare_antisym (Prim2SF x) (Prim2SF y)), Hc. by destruct c.
Qed.

Lemma float_leb_trans (x y z : float) :
  (x <=? y)%float = true → (y <=? z)%float = true → (x <=? z)%float = true.
Proof.
  rewrite !FloatAxioms.leb_spec. unfold SFleb.
  destruct (SFcompare (Prim2SF x) (Prim2SF y)) as [c1|] eqn:H1; [|done].
  destruct (SFcompare (Prim2SF y) (Prim2SF z)) as [c2|] eqn:H2;
    [|by destruct c1].
  intros Hc1 Hc2.
  destruct (SFcompare_trans _ _ _ _ _ H1 H2) as (c3 & -> & H3 & _);
    [by destruct c1|by destruct c2|by destruct c3].
Qed.

(** ** The best score *)

Lemma py_max_cons (x y : float) (xs : list float) :
  py_max x (y :: xs) = py_max (if (x <? y)%float then y else x) xs.
Proof. reflexivity. Qed.

Lemma py_max_elem (xs : list float) :
  ∀ x, py_max x xs ∈ x :: xs.
Proof.
  induction xs as [|y xs IH]; intros x; [apply list_elem_of_here|].
  rewrite py_max_cons. specialize (IH (if (x <? y)%float then y else x)).
  apply elem_of_cons in IH as [->|IH].
  - destruct (x <? y)%float; [right|]; apply list_elem_of_here.
  - by do 2 right.
Qed.

Lemma py_max_ge_first (xs : list float) :
  ∀ x, is_nan x = false → Forall (λ s, is_nan s = false) xs →
    (x <=? py_max x xs)%float = true.
Proof.
  induction xs as [|y xs IH]; intros x Hx Hxs; [by apply float_leb_refl|].
  apply Forall_cons in Hxs as [Hy Hxs]. rewrite py_max_cons.
  destruct (x <? y)%float eqn:Hlt.
  - apply (float_leb_trans x y); [by apply float_ltb_leb|by apply IH].
  - by apply IH.
Qed.

Lemma py_max_upper (xs : list float) :
  ∀ x, Forall (λ s, is_nan s = false) (x :: xs) →
    Forall (λ s, (s <=? py_max x xs)%float = true) (x :: xs).
Proof.
  induction xs as [|y xs IH]; intros x Hall.
  - apply Forall_cons in Hall as [Hx _].
    constructor; [by apply float_leb_refl|done].
  - pose proof Hall as Hall'.
    apply Forall_cons in Hall as [Hx Hall].
    apply Forall_cons in Hall as [Hy Hxs].
    constructor; [apply py_max_ge_first; [done|by constructor]|].
    rewrite py_max_cons.
    destruct (x <? y)%float eqn:Hlt.
    + apply IH. by constructor.
    + constructor.
      * apply (float_leb_trans y x); [by apply float_not_ltb_leb|].
        by apply py_max_ge_first.
      * assert (Forall (λ s, (s <=? py_max x xs)%float = true) (x :: xs))
          as Hi by (apply IH; by constructor).
        by apply Forall_cons in Hi as [_ Hi].
Qed.

(** ** The write loop of a job *)

Lemma write_status_inv (E : env) (cutoff : float) (r : scored_point)
    (w w' : world) (r0 : outcome unit) :
  write_status E cutoff r w = (r0, w') →
  (wanted_write cutoff r = [] ∧ r0 = Ok tt ∧ w' = w)
  ∨ ∃ ev, wanted_write cutoff r = [ev] ∧ trace w' = trace w ++ [ev] ∧
      (r0 = Ok tt
       ∨ ∃ msg, r0 = Raise (Exn DocumentStore msg)
                ∧ fault E (length (trace w)) ev = Some msg).
Proof.
  unfold write_status, wanted_write, decide_status.
  destruct (sp_payload r) as [p|]; simpl.
  2:{ intros [= <- <-]. left. by destruct (sp_score r). }
  destruct (p_application_id p) as [a|]; simpl.
  2:{ intros [= <- <-]. left. by destruct (sp_score r). }
  destruct (sp_score r) as [s|]; [|intros [= <- <-]; by left].
  destruct (truthy a); [|intros [= <- <-]; by left].
  intros H. right. eexists. split; [done|].
  apply update_one_inv in H as [Ht [[-> _]|[(msg & -> & Hf) _]]].
  - split; [done|]. by left.
  - split; [done|]. right. by exists msg.
Qed.

Lemma write_statuses_spec (E : env) (cutoff : float)
    (rs : list scored_point) :
  ∀ (w w' : world) (r : outcome unit),
  write_statuses E cutoff rs w = (r, w') →
  (r = Ok tt ∧ trace w' = trace w ++ status_writes cutoff rs)
  ∨ ∃ rs1 r0 rs2 ev msg,
      rs = rs1 ++ r0 :: rs2 ∧ wanted_write cutoff r0 = [ev] ∧
      r = Raise (Exn DocumentStore msg) ∧
      trace w' = trace w ++ status_writes cutoff rs1 ++ [ev] ∧
      fault E (length (trace w ++ status_writes cutoff rs1)) ev = Some msg.
Proof.
  induction rs as [|r0 rs IH]; intros w w' r; simpl.
  - intros [= <- <-]. left. by rewrite app_nil_r.
  - unfold bind. destruct (write_status E cutoff r0 w) as [r1 w1] eqn:H1.
    apply write_status_inv in H1
      as [(Hw & -> & ->)|(ev & Hw & Ht & [->|(msg & -> & Hf)])].
    + intros H. apply IH in H
        as [[-> Ht]|(rs1 & r2 & rs2 & ev & msg & -> & Hw2 & -> & Ht & Hf)].
      * left. unfold status_writes in *. simpl. by rewrite Hw.
      * right. exists (r0 :: rs1), r2, rs2, ev, msg.
        unfold status_writes in *. simpl. rewrite Hw. done.
    + intros H. apply IH in H
        as [[-> Ht2]|(rs1 & r2 & rs2 & ev2 & msg & -> & Hw2 & -> & Ht2 & Hf)].
      * left. unfold status_writes in *. simpl.
        by rewrite Hw, Ht2, Ht, <- app_assoc.
      * right. exists (r0 :: rs1), r2, rs2, ev2, msg.
        unfold status_writes in *. simpl. rewrite Hw.
        rewrite Ht, <- !app_assoc in Ht2. rewrite Ht, <- !app_assoc in Hf.
        done.
    + intros [= <- <-]. right. exists [], r0, rs, ev, msg.
      unfold status_writes. simpl. rewrite app_nil_r. done.
Qed.

Lemma wanted_write_elem (cutoff : float) (rs : list scored_point)
    (r : scored_point) (p : payload) (a : value) (s : float) :
  r ∈ rs → sp_payload r = Some p → p_application_id p = Some a →
  truthy a = true → sp_score r = Some s →
  EvUpdate a (SetStatus (decide_status cutoff s)) ∈ status_writes cutoff rs.
Proof.
  intros Hin Hp Ha Ht Hs. unfold status_writes.
  apply list_elem_of_In, in_flat_map. exists r.
  split; [by apply list_elem_of_In|].
  unfold wanted_write. rewrite Hs, Hp, Ha, Ht. by left.
Qed.

Lemma select_and_write_ok (E : env) (results : list scored_point)
    (s0 : float) (scores : list float) (w : world) :
  omap sp_score results = s0 :: scores →
  no_store_fault E →
  ∃ w', select_and_write E results w = (Ok tt, w') ∧
    trace w' =
      trace w ++ status_writes (py_max s0 scores * SELECTION_FACTOR) results.
Proof.
  intros Hs Hn. unfold select_and_write. rewrite Hs.
  destruct (write_statuses E (py_max s0 scores * SELECTION_FACTOR) results w)
    as [r w'] eqn:Hw.
  apply write_statuses_spec in Hw
    as [[-> Ht]|(rs1 & r0 & rs2 & ev & msg & _ & Hev & _ & _ & Hf)].
  - by exists w'.
  - exfalso. apply (no_store_fault_not E Hn).
    exists (length (trace w ++ status_writes (py_max s0 scores * SELECTION_FACTOR) rs1)), ev, msg.
    split; [|done]. unfold wanted_write in Hev.
    destruct (sp_score r0), (sp_payload r0) as [p|]; try done.
    destruct (p_application_id p); [|done].
    destruct (truthy v); [|done]. by injection Hev as <-.
Qed.

(** C1 (as amended).  For a job with at least one scored result the best
    score is one of the scores and, NaN aside, at least every score; the
    cutoff is the binary64 product of the best score and 0.63; while the
    store accepts the writes, the writes made are exactly one per result
    that has a score and an application id, in order, "selected" when the
    score is at least the cutoff and "rejected" otherwise, so a score equal
    to the cutoff is selected, and a result without an application id is
    given no status.  For the scores 0.90, 0.70, 0.60, 0.30 the cutoff is
    0.5670000000000001, the binary64 number next above 0.567, and the
    statuses are selected, selected, selected, rejected. *)
Theorem select_and_write_spec (E : env) (results : list scored_point)
    (s0 : float) (scores : list float) (w : world) :
  omap sp_score results = s0 :: scores →
  no_store_fault E →
  py_max s0 scores ∈ s0 :: scores ∧
  (Forall (λ s, is_nan s = false) (s0 :: scores) →
     Forall (λ s, (s <=? py_max s0 scores)%float = true) (s0 :: scores)) ∧
  (∃ w', select_and_write E results w = (Ok tt, w') ∧
     trace w' =
       trace w ++ status_writes (py_max s0 scores * SELECTION_FACTOR) results) ∧
  (∀ r p a s, r ∈ results → sp_payload r = Some p →
     p_application_id p = Some a → truthy a = true → sp_score r = Some s →
     EvUpdate a (SetStatus
                   (decide_status (py_max s0 scores * SELECTION_FACTOR) s))
       ∈ status_writes (py_max s0 scores * SELECTION_FACTOR) results) ∧
  (∀ a u, EvUpdate a u
            ∈ status_writes (py_max s0 scores * SELECTION_FACTOR) results →
     truthy a = true ∧
     ∃ r p s, r ∈ results ∧ sp_payload r = Some p ∧
       p_application_id p = Some a ∧ sp_score r = Some s ∧
       u = SetStatus (decide_status (py_max s0 scores * SELECTION_FACTOR) s)) ∧
  (∀ cutoff s, (s =? cutoff)%float = true →
     decide_status cutoff s = lit "selected") ∧
  (∀ cutoff s, (cutoff <=? s)%float = false →
     decide_status cutoff s = lit "rejected") ∧
  map (decide_status
         (py_max 0.90 [0.70; 0.60; 0.30] * SELECTION_FACTOR)%float)
      [0.90; 0.70; 0.60; 0.30]%float
    = [lit "selected"; lit "selected"; lit "selected"; lit "rejected"] ∧
  (py_max 0.90 [0.70; 0.60; 0.30] * SELECTION_FACTOR)%float
    = 0.5670000000000001%float ∧
  next_up 0.567%float = 0.5670000000000001%float.
Proof.
  intros Hs Hn.
  split; [apply py_max_elem|].
  split; [apply py_max_upper|].
  split; [by apply select_and_write_ok|].
  split; [intros r p a s; apply wanted_write_elem|].
  split.
  { intros a u Hin. unfold status_writes in Hin.
    apply list_elem_of_In, in_flat_map in Hin as (r & Hr & Hin).
    apply list_elem_of_In in Hr. unfold wanted_write in Hin.
    destruct (sp_score r) as [s|] eqn:Hsc; [|done].
    destruct (sp_payload r) as [p|] eqn:Hp; [|done].
    destruct (p_application_id p) as [a0|] eqn:Ha; [|done].
    destruct (truthy a0) eqn:Ht; [|done].
    destruct Hin as [[= <- <-]|[]]. split; [done|].
    by exists r, p, s. }
  split.
  { intros cutoff s Heq. unfold decide_status.
    by rewrite (float_eqb_leb s cutoff Heq). }
  split.
  { intros cutoff s Hlt. unfold decide_status. by rewrite Hlt. }
  split; [|split]; vm_compute; reflexivity.
Qed.

Lemma select_and_write_spec_witness :
  ∃ w', select_and_write (matching_env [] no_fault) sample_results (start ∅)
        = (Ok tt, w') ∧
    trace w' =
      [EvUpdate (VStr (lit "a1")) (SetStatus (lit "selected"));
       EvUpdate (VStr (lit "a2")) (SetStatus (lit "selected"));
       EvUpdate (VStr (lit "a3")) (SetStatus (lit "selected"));
       EvUpdate (VStr (lit "a4")) (SetStatus (lit "rejected"))].
Proof.
  destruct (select_and_write_spec (matching_env [] no_fault) sample_results
              0.90%float [0.70; 0.60; 0.30]%float (start ∅) eq_refl
              (fun _ _ _ => eq_refl))
    as (_ & _ & (w' & Hr & Ht) & _).
  exists w'. split; [exact Hr|]. rewrite Ht. vm_compute. reflexivity.
Defined.

(** C1 (as stated) fails.  For the scores of the worked example the cutoff
    is not 0.567: a result of the same job that scores exactly 0.567 is
    below it and is rejected.  And a result that has a score but no
    application id in its payload is given no status: no write is made
    for it. *)
Lemma cutoff_is_not_0_567 :
  (py_max 0.90 [0.70; 0.60; 0.30] * SELECTION_FACTOR =? 0.567)%float = false ∧
  (0.567 <? py_max 0.90 [0.70; 0.60; 0.30] * SELECTION_FACTOR)%float = true ∧
  decide_status (py_max 0.90 [0.70; 0.60; 0.30] * SELECTION_FACTOR)%float
    0.567%float = lit "rejected" ∧
  trace (select_and_write (matching_env [] no_fault)
           (sample_results ++ [mk_result (lit "a5") (lit "j1") 0.567%float])
           (start ∅)).2
    = [EvUpdate (VStr (lit "a1")) (SetStatus (lit "selected"));
       EvUpdate (VStr (lit "a2")) (SetStatus (lit "selected"));
       EvUpdate (VStr (lit "a3")) (SetStatus (lit "selected"));
       EvUpdate (VStr (lit "a4")) (SetStatus (lit "rejected"));
       EvUpdate (VStr (lit "a5")) (SetStatus (lit "rejected"))] ∧
  sp_score unnamed_result = Some 0.90%float ∧
  select_and_write (matching_env [] no_fault) [unnamed_result] (start ∅)
    = (Ok tt, start ∅).
Proof.
  split; [|split; [|split; [|split; [|split]]]]; vm_compute; reflexivity.
Qed.

(** ** One job *)

Lemma filter_by_job_world (job_id : str) (rs : list scored_point)
    (w : world) :
  (filter_by_job job_id rs w).2 = w.
Proof.
  induction rs as [|r0 rs IH]; simpl; [done|].
  destruct (sp_payload r0); [|done]. unfold bind.
  destruct (filter_by_job job_id rs w) as [[kept|e|] w1]; simpl in IH;
    by subst w1.
Qed.

Lemma match_results_trace (E : env) (job_id : str) (jd_vector : vector)
    (w w' : world) (r : outcome unit) :
  match_results E job_id jd_vector w = (r, w') →
  ∃ evs, trace w' = trace w ++ EvQuery jd_vector :: evs.
Proof.
  unfold match_results, bind.
  destruct (call E (EvQuery jd_vector) w) as [r0 w0] eqn:Hc.
  apply call_inv in Hc as [-> [[-> _]|(msg & -> & _)]].
  2:{ intros [= <- <-]. by exists []. }
  destruct (filter_by_job job_id (query_points E jd_vector)
              (log (EvQuery jd_vector) w)) as [r1 w1] eqn:Hf.
  pose proof (filter_by_job_world job_id (query_points E jd_vector)
                (log (EvQuery jd_vector) w)) as Hw.
  rewrite Hf in Hw. simpl in Hw. subst w1.
  destruct r1 as [[|r2 rs]|e|]; try (intros [= <- <-]; by exists []).
  unfold select_and_write.
  destruct (omap sp_score (r2 :: rs)) as [|s0 scores];
    [intros [= <- <-]; by exists []|].
  intros H. apply write_statuses_spec in H
    as [[_ Ht]|(rs1 & r0 & rs2 & ev & msg & _ & _ & _ & Ht & _)];
    rewrite Ht; simpl; rewrite <- app_assoc; by eexists.
Qed.

(** C6 (as amended).  A job whose description is absent, or is empty or
    whitespace-only as stored (before its markup is stripped), is skipped
    with no call at all: no embedding, no query, no write.  Any other
    description is cleaned and embedded, whatever is left of it. *)
Theorem blank_description_skipped (E : env) (j : job) (w : world) :
  (description j = None
   ∨ (∃ d, description j = Some (VStr d) ∧ strip d = []) →
   match_job E j w = (Ok tt, w)) ∧
  (∀ d, description j = Some (VStr d) → strip d ≠ [] →
     ∃ evs, trace (match_job E j w).2
            = trace w ++ EvEncode (clean_html E d) :: evs).
Proof.
  split.
  - intros [Hd|(d & Hd & Hs)]; unfold match_job, bind, job_description;
      rewrite Hd; simpl; [done|]. by rewrite Hs.
  - intros d Hd Hs. unfold match_job, bind, job_description. rewrite Hd.
    simpl. destruct (falsy_str (strip d)) eqn:Hf;
      [by apply falsy_str_nil in Hf|].
    destruct (encode E (clean_html E d) w) as [r0 w0] eqn:He.
    apply encode_inv in He as [-> Hr].
    destruct r0 as [v|e|]; [|by exists []|by exists []].
    unfold try_except, catch.
    destruct (match_results E (j_id j) v (log (EvEncode (clean_html E d)) w))
      as [r1 w1] eqn:Hm.
    apply match_results_trace in Hm as [evs Ht].
    exists (EvQuery v :: evs).
    destruct r1; simpl; rewrite Ht; simpl; by rewrite <- app_assoc.
Qed.

Lemma blank_description_skipped_witness :
  match_job (matching_env [] no_fault) (mk_job (lit "j1") (lit "  "))
    (start ∅) = (Ok tt, start ∅) ∧
  match_job (matching_env [] no_fault) (mk_job (lit "j1") [nbsp; nbsp])
    (start ∅) = (Ok tt, start ∅) ∧
  ∃ evs, trace (match_job (matching_env [] no_fault)
                  (mk_job (lit "j1") (lit "<p>Build <b>APIs</b></p>"))
                  (start ∅)).2
         = EvEncode (lit "Build APIs") :: evs.
Proof.
  split; [|split].
  - apply (proj1 (blank_description_skipped _ _ _)).
    right. exists (lit "  "). split; reflexivity.
  - apply (proj1 (blank_description_skipped _ _ _)).
    right. exists [nbsp; nbsp]. split; reflexivity.
  - apply (proj2 (blank_description_skipped (matching_env [] no_fault)
                    (mk_job (lit "j1") (lit "<p>Build <b>APIs</b></p>"))
                    (start ∅)) (lit "<p>Build <b>APIs</b></p>") eq_refl).
    vm_compute. discriminate.
Defined.

(** C6 (as stated) fails: a description made of markup only is empty once
    cleaned, yet the turn of the job loop for it embeds the empty text,
    queries the index and writes the statuses. *)
Lemma markup_only_job_not_skipped :
  clean_html (matching_env [] no_fault) (lit "<p> </p>") = [] ∧
  (match_job (matching_env [] no_fault) (mk_job (lit "j1") (lit "<p> </p>"))
     (start ∅)).1 = Ok tt ∧
  trace (match_job (matching_env [] no_fault)
           (mk_job (lit "j1") (lit "<p> </p>")) (start ∅)).2
  = [EvEncode []; EvQuery [1%float];
     EvUpdate (VStr (lit "a1")) (SetStatus (lit "selected"));
     EvUpdate (VStr (lit "a2")) (SetStatus (lit "selected"));
     EvUpdate (VStr (lit "a3")) (SetStatus (lit "selected"));
     EvUpdate (VStr (lit "a4")) (SetStatus (lit "rejected"))].
Proof. split; [|split]; vm_compute; reflexivity. Qed.




(** * Further properties of the code *)

(** ** More on key derivation *)

Lemma split_from_last_suffix (sep : str) (fuel : nat) :
  ∀ s, last_piece (split_from fuel sep s) `suffix_of` s.
Proof.
  induction fuel as [|n IH]; intros s; simpl; [done|].
  destruct (find_sep sep s) as [[a b]|] eqn:Hf; [|done].
  rewrite last_piece_cons by apply split_from_nonempty.
  apply find_sep_Some in Hf. unfold occurs_at in Hf. subst s.
  destruct (IH b) as [k Hk]. exists (a ++ sep ++ k).
  rewrite Hk at 1. by rewrite <- !app_assoc.
Qed.

Lemma split_from_last_free (sep : str) :
  sep ≠ [] →
  ∀ fuel s, length s ≤ fuel →
    ¬ occurs sep (last_piece (split_from fuel sep s)).
Proof.
  intros Hne. induction fuel as [|n IH]; intros s Hlen.
  - destruct s; [|simpl in Hlen; lia]. simpl.
    intros (a & b & Ho). unfold occurs_at in Ho.
    symmetry in Ho. apply app_eq_nil in Ho as [_ Ho].
    by apply app_eq_nil in Ho as [Ho _].
  - simpl. destruct (find_sep sep s) as [[a b]|] eqn:Hf.
    + rewrite last_piece_cons by apply split_from_nonempty.
      apply IH. apply find_sep_Some in Hf. unfold occurs_at in Hf. subst s.
      rewrite !length_app in Hlen.
      destruct sep; [done|simpl in Hlen; lia].
    + by apply find_sep_None.
Qed.

(** X1.  The key is always a suffix of the reference, never contains the
    marker, and deriving a key from a key changes nothing. *)
Theorem extract_s3_key_normal (url : str) :
  extract_s3_key url `suffix_of` url ∧
  ¬ occurs MARKER (extract_s3_key url) ∧
  extract_s3_key (extract_s3_key url) = extract_s3_key url.
Proof.
  assert (¬ occurs MARKER (extract_s3_key url)) as Hfree
    by (apply split_from_last_free; [discriminate|done]).
  split; [apply split_from_last_suffix|]. split; [done|].
  unfold extract_s3_key at 1. unfold py_split.
  by rewrite split_from_no_occurrence.
Qed.

(** ** Stripping *)

Lemma lstrip_spec (s : str) :
  ∃ ws, s = ws ++ lstrip s ∧ forallb is_space ws = true ∧ no_lead (lstrip s).
Proof.
  induction s as [|c s (ws & Hs & Hws & Hl)]; [by exists []|].
  simpl. destruct (is_space c) eqn:Hc.
  - exists (c :: ws). simpl. rewrite Hc, Hws. split; [by f_equal|done].
  - exists []. done.
Qed.

Lemma lstrip_id (s : str) : no_lead s → lstrip s = s.
Proof. destruct s as [|c s]; simpl; [done|]. by intros ->. Qed.

Lemma rstrip_spec (s : str) :
  ∃ ws, s = rstrip s ++ ws ∧ forallb is_space ws = true
        ∧ no_lead (reverse (rstrip s)).
Proof.
  destruct (lstrip_spec (reverse s)) as (ws & Hs & Hws & Hl).
  exists (reverse ws). unfold rstrip. split; [|split].
  - rewrite <- reverse_app, <- Hs. by rewrite reverse_involutive.
  - apply forallb_forall. intros c Hc.
    apply (proj1 (forallb_forall _ _) Hws).
    apply list_elem_of_In, elem_of_reverse. by apply list_elem_of_In.
  - by rewrite reverse_involutive.
Qed.

Lemma rstrip_id (s : str) : no_lead (reverse s) → rstrip s = s.
Proof.
  intros H. unfold rstrip. rewrite lstrip_id by done.
  apply reverse_involutive.
Qed.

Lemma rstrip_no_lead (s : str) : no_lead s → no_lead (rstrip s).
Proof.
  destruct (rstrip_spec s) as (ws & Hs & _ & _).
  destruct (rstrip s) as [|c t]; [done|].
  rewrite Hs. simpl. done.
Qed.

Lemma strip_normal (s : str) :
  no_lead (strip s) ∧ no_lead (reverse (strip s)).
Proof.
  unfold strip. split.
  - apply rstrip_no_lead. by destruct (lstrip_spec s) as (? & _ & _ & ?).
  - by destruct (rstrip_spec (lstrip s)) as (? & _ & _ & ?).
Qed.

Lemma strip_id (s : str) :
  no_lead s → no_lead (reverse s) → strip s = s.
Proof.
  intros H1 H2. unfold strip. rewrite lstrip_id by done. by apply rstrip_id.
Qed.

Lemma strip_strip (s : str) : strip (strip s) = strip s.
Proof. destruct (strip_normal s). by apply strip_id. Qed.

(** X2.  [_getenv_strip] gives nothing only for a variable that is unset
    and has no default; any value it gives is free of surrounding
    whitespace, and is the stripped inside of the stripped value when that
    is wrapped in a pair of double or of single quotes. *)
Theorem getenv_strip_spec (value default : option str) :
  (_getenv_strip value default = None ↔ value = None ∧ default = None) ∧
  (∀ r, _getenv_strip value default = Some r →
     no_lead r ∧ no_lead (reverse r) ∧ strip r = r) ∧
  (∀ v, value = Some v →
     quoted dquote (strip v) || quoted squote (strip v) = true →
     _getenv_strip value default = Some (strip (inner (strip v)))) ∧
  (∀ v, value = Some v →
     quoted dquote (strip v) || quoted squote (strip v) = false →
     _getenv_strip value default = Some (strip v)).
Proof.
  unfold _getenv_strip. split; [|split; [|split]].
  - destruct value as [v|], default as [d|]; simpl; try done.
    + split; [by destruct (_ || _)|by intros [[=] _]].
    + split; [by destruct (_ || _)|by intros [[=] _]].
    + split; [by destruct (_ || _)|by intros [_ [=]]].
  - intros r.
    destruct (match value with Some v => Some v | None => default end)
      as [v|]; [|done].
    simpl. destruct (_ || _); intros [= <-];
      (split; [apply strip_normal|split; [apply strip_normal|]]);
      apply strip_strip.
  - intros v -> Hq. simpl. by rewrite Hq.
  - intros v -> Hq. simpl. by rewrite Hq.
Qed.

Lemma getenv_strip_spec_witness :
  _getenv_strip (Some (lit "  ' mongodb://db '  ")) None
    = Some (lit "mongodb://db") ∧
  _getenv_strip (Some (nbsp :: dquote :: lit "ats" ++ [dquote; nbsp])) None
    = Some (lit "ats") ∧
  _getenv_strip (Some (lit " ats ")) None = Some (lit "ats") ∧
  strip (lit "ats") = lit "ats".
Proof.
  destruct (getenv_strip_spec (Some (lit "  ' mongodb://db '  ")) None)
    as (_ & _ & Hq & _).
  destruct (getenv_strip_spec
              (Some (nbsp :: dquote :: lit "ats" ++ [dquote; nbsp])) None)
    as (_ & _ & Hq' & _).
  destruct (getenv_strip_spec (Some (lit " ats ")) None)
    as (_ & Hs & _ & Hn).
  split; [exact (Hq _ eq_refl eq_refl)|].
  split; [exact (Hq' _ eq_refl eq_refl)|].
  split; [exact (Hn _ eq_refl eq_refl)|].
  exact (proj2 (proj2 (Hs (lit "ats") (Hn _ eq_refl eq_refl)))).
Defined.

(** ** Whitespace normalisation *)

Lemma collapse_ws_head (c : ascii) (s : str) :
  is_space c = false → ∃ t, collapse_ws (c :: s) = c :: t.
Proof. intros H. simpl. rewrite H. by eexists. Qed.

Lemma collapse_ws_single_spaced (s : str) :
  single_spaced (collapse_ws s) = true.
Proof.
  induction s as [|c s IH]; [done|].
  simpl. destruct (is_space c) eqn:Hc.
  - destruct s as [|c' s']; [done|].
    destruct (is_space c') eqn:Hc'; [done|].
    destruct (collapse_ws_head c' s' Hc') as [t Ht].
    rewrite Ht in IH |- *. simpl in IH |- *. rewrite Hc' in IH |- *.
    exact IH.
  - simpl. by rewrite Hc, IH.
Qed.

Lemma single_spaced_id (s : str) :
  single_spaced s = true → collapse_ws s = s.
Proof.
  induction s as [|c s IH]; [done|].
  simpl. intros [Hc Hs]%andb_true_iff. specialize (IH Hs).
  destruct (is_space c) eqn:Hsp; [|by rewrite IH].
  apply andb_true_iff in Hc as [Heq%bool_decide_eq_true Hn]. subst c.
  destruct s as [|c' s']; [done|].
  apply negb_true_iff in Hn. rewrite Hn. by rewrite IH.
Qed.

Lemma single_spaced_app_r (a b : str) :
  single_spaced (a ++ b) = true → single_spaced b = true.
Proof.
  induction a as [|c a IH]; [done|]. simpl.
  intros [_ H]%andb_true_iff. by apply IH.
Qed.

Lemma single_spaced_app_l (a b : str) :
  single_spaced (a ++ b) = true → single_spaced a = true.
Proof.
  induction a as [|c a IH]; [done|]. simpl.
  intros [Hc H]%andb_true_iff. rewrite (IH H), andb_true_r.
  destruct (is_space c); [|done].
  apply andb_true_iff in Hc as [-> Hn]. simpl.
  destruct a as [|c' a']; [done|]. exact Hn.
Qed.

Lemma single_spaced_strip (s : str) :
  single_spaced s = true → single_spaced (strip s) = true.
Proof.
  intros H. unfold strip.
  destruct (lstrip_spec s) as (ws & Hs & _ & _).
  destruct (rstrip_spec (lstrip s)) as (ws' & Hs' & _ & _).
  rewrite Hs in H. apply single_spaced_app_r in H.
  rewrite Hs' in H. by apply single_spaced_app_l in H.
Qed.

(** X3.  Whatever the HTML parser returns, the cleaned description has no
    whitespace but single spaces between other characters, none at either
    end, and cleaning it again changes nothing. *)
Theorem clean_html_normal (E : env) (raw_html : str) :
  single_spaced (clean_html E raw_html) = true ∧
  no_lead (clean_html E raw_html) ∧
  no_lead (reverse (clean_html E raw_html)) ∧
  strip (collapse_ws (clean_html E raw_html)) = clean_html E raw_html.
Proof.
  assert (single_spaced (clean_html E raw_html) = true) as Hs
    by apply single_spaced_strip, collapse_ws_single_spaced.
  destruct (strip_normal (collapse_ws (soup_get_text E raw_html)))
    as [Hl Hr].
  split; [done|]. split; [done|]. split; [done|].
  rewrite single_spaced_id by done. apply strip_strip.
Qed.

(** ** More on the extractor *)

Lemma accumulate_total {A} (f : A → result str) (xs : list A) :
  (∀ x, ∃ t, f x = inr t) →
  ∀ text, ∃ t, accumulate f xs text = (t, None) ∧ text `prefix_of` t.
Proof.
  intros Hf. induction xs as [|x xs IH]; intros text; simpl.
  - by exists text.
  - destruct (Hf x) as [t0 ->]. destruct (IH (text ++ t0)) as (t & -> & Hp).
    exists t. split; [done|]. etrans; [|exact Hp]. by apply prefix_app_r.
Qed.

Lemma accumulate_prefix {A} (f : A → result str) (xs : list A) :
  ∀ text t o, accumulate f xs text = (t, o) → text `prefix_of` t.
Proof.
  induction xs as [|x xs IH]; intros text t o; simpl.
  - by intros [= <- <-].
  - destruct (f x) as [m|t0]; [by intros [= <- <-]|].
    intros H%IH. etrans; [|exact H]. by apply prefix_app_r.
Qed.

Lemma ocr_pages_prefix (E : env) (b : blob) (text t : str)
    (o : option exn) :
  ocr_pages E b text = (t, o) → text `prefix_of` t.
Proof.
  unfold ocr_pages. destruct (convert_from_bytes E b) as [m|imgs];
    [by intros [= <- <-]|].
  destruct (accumulate (image_to_string E) imgs text) as [t0 [m|]] eqn:Ha;
    intros [= <- <-]; by apply accumulate_prefix in Ha.
Qed.

Lemma ocr_pages_total (E : env) (b : blob) (text : str) :
  readers_total E → ∃ t, ocr_pages E b text = (t, None).
Proof.
  intros (_ & _ & _ & Hocr & Hras). unfold ocr_pages.
  destruct (Hras b) as [imgs ->].
  destruct (accumulate_total (image_to_string E) imgs Hocr text)
    as (t & -> & _).
  by exists t.
Qed.

(** X4.  What the extractor returns is never empty or whitespace-only;
    and when the download, the image decoder, the rasterizer and the OCR
    engine do not raise, the only exception it can raise is "No text
    extracted", whatever the PDF reader does. *)
Theorem extract_text_one_failure (E : env) (url : str) :
  (∀ text, extract_text_from_s3 E url = inr text →
     forallb is_space text = false ∧ text ≠ []) ∧
  (readers_total E →
     ∀ e, extract_text_from_s3 E url = inl e → e = NoTextExtracted).
Proof.
  split.
  - intros text. unfold extract_text_from_s3.
    destruct (accumulated_text E url) as [e|t]; [done|].
    destruct (falsy_str (strip t)) eqn:Hf; intros [= <-].
    split.
    + apply not_true_is_false. intros H%strip_nil%falsy_str_nil. congruence.
    + intros ->. discriminate Hf.
  - intros Ht e. pose proof Ht as (Hs3 & Hget & Himg & Hocr & Hras).
    unfold extract_text_from_s3, accumulated_text. rewrite Hs3. simpl.
    destruct (Hget (S3_BUCKET E) (extract_s3_key url)) as [b ->].
    destruct (is_image_key (extract_s3_key url)).
    + unfold image_text. destruct (Himg b) as [img ->].
      destruct (Hocr img) as [t ->].
      destruct (falsy_str (strip t)); by intros [= <-].
    + unfold pdf_text, pdf_try.
      destruct (text_layer E b) as [t0 [e0|]].
      * destruct (ocr_pages_total E b t0 Ht) as [t ->].
        destruct (falsy_str (strip t)); by intros [= <-].
      * destruct (falsy_str (strip t0)) eqn:Hb.
        -- destruct (ocr_pages_total E b t0 Ht) as [t ->].
           destruct (falsy_str (strip t)); by intros [= <-].
        -- rewrite Hb. by intros [= <-].
Qed.

Lemma extract_text_one_failure_witness :
  (forallb is_space (lit "Jane Doe") = false ∧ lit "Jane Doe" ≠ []) ∧
  ∃ e, extract_text_from_s3 sample_env
         (lit "https://cv.s3.amazonaws.com/blank.pdf") = inl e
       ∧ e = NoTextExtracted.
Proof.
  split.
  - refine (proj1 (extract_text_one_failure sample_env
                     (lit "https://cv.s3.amazonaws.com/cv.png"))
              (lit "Jane Doe") _).
    vm_compute. reflexivity.
  - exists NoTextExtracted. split; [vm_compute; reflexivity|].
    refine (proj2 (extract_text_one_failure sample_env
                     (lit "https://cv.s3.amazonaws.com/blank.pdf")) _
              NoTextExtracted _); [|vm_compute; reflexivity].
    split; [reflexivity|].
    split; [intros b k; by eexists|].
    split; [intros b; by eexists|].
    split; [|intros b; by eexists].
    intros b. simpl. repeat case_bool_decide; by eexists.
Defined.

(** X5.  For a key that is not an image, the text of the text layer read
    before the PDF reader raised, or a blank text layer, is kept: the
    accumulated text starts with it. *)
Theorem text_layer_kept (E : env) (url : str) (file_bytes : blob)
    (layer text : str) (oe : option exn) :
  s3_configured E = true →
  s3_get_object E (S3_BUCKET E) (extract_s3_key url) = inr file_bytes →
  is_image_key (extract_s3_key url) = false →
  text_layer E file_bytes = (layer, oe) →
  accumulated_text E url = inr text →
  layer `prefix_of` text.
Proof.
  intros Hs3 Hget Himg Hl. unfold accumulated_text.
  rewrite Hs3, Hget, Himg. simpl. unfold pdf_text, pdf_try. rewrite Hl.
  destruct oe as [e|].
  - destruct (ocr_pages E file_bytes layer) as [t [e1|]] eqn:Ho;
      intros [= <-]. by apply ocr_pages_prefix in Ho.
  - destruct (falsy_str (strip layer)); [|by intros [= <-]].
    destruct (ocr_pages E file_bytes layer) as [t [e1|]] eqn:Ho.
    + destruct (ocr_pages E file_bytes t) as [t2 [e2|]] eqn:Ho2;
        intros [= <-].
      apply ocr_pages_prefix in Ho, Ho2. by etrans.
    + intros [= <-]. by apply ocr_pages_prefix in Ho.
Qed.

Lemma text_layer_kept_witness :
  text_layer sample_env (lit "damaged.pdf")
    = (lit "John Roe, ", Some (Exn PdfReader (lit "bad xref"))) ∧
  accumulated_text sample_env (lit "https://cv.s3.amazonaws.com/damaged.pdf")
    = inr (lit "John Roe, Jane Doe") ∧
  lit "John Roe, " `prefix_of` lit "John Roe, Jane Doe" ∧
  text_layer sample_env (lit "blank.pdf") = ([], None) ∧
  [] `prefix_of` lit " ".
Proof.
  split; [reflexivity|]. split; [reflexivity|]. split.
  - refine (text_layer_kept sample_env
              (lit "https://cv.s3.amazonaws.com/damaged.pdf")
              (lit "damaged.pdf") (lit "John Roe, ")
              (lit "John Roe, Jane Doe")
              (Some (Exn PdfReader (lit "bad xref"))) _ _ _ _ _);
      reflexivity.
  - split; [reflexivity|].
    refine (text_layer_kept sample_env
              (lit "https://cv.s3.amazonaws.com/blank.pdf")
              (lit "blank.pdf") [] (lit " ") None _ _ _ _ _);
      reflexivity.
Defined.

(** ** What the pipelines touch *)

Section Footprint.
Variable P : event → bool.
Variable Q : application → application → Prop.
Hypothesis Q_refl : ∀ d, Q d d.
Hypothesis Q_trans : ∀ d1 d2 d3, Q d1 d2 → Q d2 d3 → Q d1 d3.












End Footprint.










(** ** Size and order of a batch *)



Global Instance comes_before_total (E : env) : Total (comes_before E).
Proof. intros x y. unfold comes_before. lia. Qed.

Global Instance comes_before_trans (E : env) : Transitive (comes_before E).
Proof. intros x y z. unfold comes_before. lia. Qed.




(** ** What becomes of one record *)

(** X9.  While the store accepts writes, a record whose text cannot be
    extracted is marked failed with the text of the exception and without
    any embedding call, one whose text cannot be embedded is marked failed
    likewise, and neither yields a point or touches the flag; a record that
    is read and embedded yields one point, and is marked indexed with the
    flag set. *)
Theorem index_record_outcome (E : env) (id url : str) (app : application)
    (points : list point) (w : world) :
  no_store_fault E →
  resume app = Some (VStr url) →
  (∀ e, extract_text_from_s3 E url = inl e →
     index_record E (id, app) points w =
       (Ok points,
        {| applications :=
             alter (apply_update (SetFailed (exn_msg e))) id (applications w);
           trace := trace w ++ [EvUpdate (VStr id) (SetFailed (exn_msg e))] |})) ∧
  (∀ text msg, extract_text_from_s3 E url = inr text →
     model_encode E text = inl msg →
     index_record E (id, app) points w =
       (Ok points,
        {| applications :=
             alter (apply_update (SetFailed msg)) id (applications w);
           trace := trace w ++ [EvEncode text;
                                EvUpdate (VStr id) (SetFailed msg)] |})) ∧
  (∀ text v, extract_text_from_s3 E url = inr text →
     model_encode E text = inr v →
     index_record E (id, app) points w =
       (Ok (points ++
              [{| pt_id := mongo_id_to_uuid E id; pt_vector := v;
                  pt_payload :=
                    {| p_application_id := Some (VStr id);
                       p_job_id := Some (VStr (default [] (jobID app)));
                       p_resume_text := Some (VStr (take 1500 text)) |} |}]),
        {| applications :=
             alter (apply_update (SetIndexed (S (length (trace w))))) id
               (applications w);
           trace := trace w ++
                      [EvEncode text;
                       EvUpdate (VStr id)
                         (SetIndexed (S (length (trace w))))] |})).
Proof.
  intros Hn Hr.
  assert (∀ u w0, update_one E (VStr id) u w0 =
            (Ok tt, {| applications := alter (apply_update u) id (applications w0);
                       trace := trace w0 ++ [EvUpdate (VStr id) u] |})) as Hup.
  { intros u w0. unfold update_one, bind.
    by rewrite (call_store_ok E (EvUpdate (VStr id) u) w0 Hn eq_refl). }
  split; [|split].
  - intros e He. unfold index_record, catch, build_point, bind, resume_url.
    simpl. rewrite Hr. simpl. rewrite He. simpl.
    unfold mark_failed. by rewrite Hup.
  - intros text msg He Hm.
    unfold index_record, catch, build_point, bind, resume_url.
    simpl. rewrite Hr. simpl. rewrite He. simpl.
    unfold encode, bind, lift_result. simpl. rewrite Hm. simpl.
    unfold mark_failed. rewrite Hup. simpl. by rewrite <- app_assoc.
  - intros text v He Hm.
    unfold index_record, catch, build_point, bind, resume_url.
    simpl. rewrite Hr. simpl. rewrite He. simpl.
    unfold encode, bind, lift_result. simpl. rewrite Hm. simpl.
    unfold mark_indexed, bind, now. simpl. rewrite Hup. simpl.
    rewrite length_app. simpl. rewrite Nat.add_1_r.
    by rewrite <- app_assoc.
Qed.

Lemma index_record_outcome_witness :
  index_record sample_env
    (lit "a9", mk_application (lit "https://cv.s3.amazonaws.com/blank.pdf")
                 (lit "open") None) [] (start ∅)
  = (Ok [],
     {| applications := ∅;
        trace := [EvUpdate (VStr (lit "a9"))
                    (SetFailed (lit "No text extracted"))] |}).
Proof.
  refine (proj1 (index_record_outcome sample_env (lit "a9")
                   (lit "https://cv.s3.amazonaws.com/blank.pdf")
                   (mk_application (lit "https://cv.s3.amazonaws.com/blank.pdf")
                      (lit "open") None) [] (start ∅) _ eq_refl)
            NoTextExtracted _).
  - intros n ev _. reflexivity.
  - vm_compute. reflexivity.
Defined.

(** ** Running the indexing pipeline again *)




(** ** The results a job writes to *)

Lemma filter_by_job_spec (job_id : str) (rs : list scored_point)
    (w : world) :
  filter_by_job job_id rs w =
    (if forallb (λ r, bool_decide (is_Some (sp_payload r))) rs
     then Ok (filter (λ r, result_job r = Some (VStr job_id)) rs)
     else Raise (Exn Agent (lit "'NoneType' object has no attribute 'get'")),
     w).
Proof.
  induction rs as [|r rs IH]; simpl; [done|].
  destruct (sp_payload r) as [p|] eqn:Hp; simpl; [|done].
  unfold bind. rewrite IH.
  destruct (forallb _ rs); [|done]. unfold ret. f_equal. f_equal.
  assert (result_job r = p_job_id p) as Hrj
    by (unfold result_job; by rewrite Hp).
  rewrite filter_cons, Hrj. case_bool_decide; by case_decide.
Qed.

Lemma status_writes_elem (cutoff : float) (rs : list scored_point)
    (ev : event) :
  ev ∈ status_writes cutoff rs →
  ∃ r p a s, r ∈ rs ∧ sp_payload r = Some p ∧ p_application_id p = Some a ∧
    truthy a = true ∧ sp_score r = Some s ∧
    ev = EvUpdate a (SetStatus (decide_status cutoff s)).
Proof.
  unfold status_writes. intros Hin.
  apply list_elem_of_In, in_flat_map in Hin as (r & Hr & Hev).
  apply list_elem_of_In in Hr. unfold wanted_write in Hev.
  destruct (sp_score r) as [s|] eqn:Hs; [|done].
  destruct (sp_payload r) as [p|] eqn:Hp; [|done].
  destruct (p_application_id p) as [a|] eqn:Ha; [|done].
  destruct (truthy a) eqn:Ht; [|done].
  destruct Hev as [<-|[]]. by exists r, p, a, s.
Qed.

(** X11.  The writes made for a job go only to results of the query whose
    payload names that job, carry the id and the decision of such a result,
    and there is none when some result of the query comes without a
    payload: the job is then given up after the query. *)
Theorem match_results_own_job (E : env) (job_id : str) (jd_vector : vector)
    (w w' : world) (r : outcome unit) :
  match_results E job_id jd_vector w = (r, w') →
  ∃ evs cutoff,
    trace w' = trace w ++ EvQuery jd_vector :: evs ∧
    Forall (λ ev, ∃ res p a s,
              res ∈ query_points E jd_vector ∧ sp_payload res = Some p ∧
              p_job_id p = Some (VStr job_id) ∧
              p_application_id p = Some a ∧ sp_score res = Some s ∧
              ev = EvUpdate a (SetStatus (decide_status cutoff s))) evs ∧
    ((∃ res, res ∈ query_points E jd_vector ∧ sp_payload res = None) →
       evs = []).
Proof.
  unfold match_results, bind.
  destruct (call E (EvQuery jd_vector) w) as [r0 w0] eqn:Hc.
  apply call_inv in Hc as [-> [[-> _]|(msg & -> & _)]].
  2:{ intros [= <- <-]. by exists [], 0%float. }
  rewrite filter_by_job_spec.
  destruct (forallb _ (query_points E jd_vector)) eqn:Hall.
  2:{ intros [= <- <-]. by exists [], 0%float. }
  assert (¬ ∃ res, res ∈ query_points E jd_vector ∧ sp_payload res = None)
    as Hno.
  { intros (res & Hin & Hp). rewrite forallb_forall in Hall.
    specialize (Hall res ltac:(by apply list_elem_of_In)).
    rewrite Hp in Hall. apply bool_decide_eq_true in Hall.
    by destruct Hall. }
  set (kept := filter (λ r, result_job r = Some (VStr job_id))
                 (query_points E jd_vector)).
  assert (∀ cutoff evs, (∀ ev, ev ∈ evs → ev ∈ status_writes cutoff kept) →
    Forall (λ ev, ∃ res p a s,
              res ∈ query_points E jd_vector ∧ sp_payload res = Some p ∧
              p_job_id p = Some (VStr job_id) ∧
              p_application_id p = Some a ∧ sp_score res = Some s ∧
              ev = EvUpdate a (SetStatus (decide_status cutoff s))) evs)
    as Hown.
  { intros cutoff evs Hsub. apply Forall_forall. intros ev Hev.
    apply Hsub, status_writes_elem in Hev
      as (res & p & a & s & Hin & Hp & Ha & _ & Hs & ->).
    apply list_elem_of_filter in Hin as [Hj Hin].
    unfold result_job in Hj. rewrite Hp in Hj.
    by exists res, p, a, s. }
  destruct kept as [|r1 rs] eqn:Hk.
  { intros [= <- <-]. by exists [], 0%float. }
  unfold select_and_write.
  destruct (omap sp_score (r1 :: rs)) as [|s0 scores].
  { intros [= <- <-]. by exists [], 0%float. }
  intros H. apply write_statuses_spec in H
    as [[_ Ht]|(rs1 & r2 & rs2 & ev & msg & Hrs & Hw & _ & Ht & _)].
  - exists (status_writes (py_max s0 scores * SELECTION_FACTOR) (r1 :: rs)),
      (py_max s0 scores * SELECTION_FACTOR)%float.
    split; [by rewrite Ht; simpl; rewrite <- app_assoc|].
    split; [by apply Hown|done].
  - exists (status_writes (py_max s0 scores * SELECTION_FACTOR) rs1 ++ [ev]),
      (py_max s0 scores * SELECTION_FACTOR)%float.
    split; [by rewrite Ht; simpl; rewrite <- app_assoc|].
    split; [|done]. apply Hown. intros ev0 Hev0. rewrite Hrs.
    unfold status_writes. rewrite flat_map_app. simpl. rewrite Hw.
    apply elem_of_app in Hev0 as [Hev0|Hev0%list_elem_of_singleton].
    + apply elem_of_app. by left.
    + subst. apply elem_of_app. right. apply list_elem_of_here.
Qed.

(** ** When the loops of the matching pipeline end normally *)

Lemma completes_ret {A} (a : A) : completes (ret a).
Proof. intros w. by exists a. Qed.

Lemma completes_bind {A B} (m : M A) (k : A → M B) :
  completes m → (∀ a, completes (k a)) → completes (bind m k).
Proof.
  intros Hm Hk w. unfold bind. destruct (Hm w) as [a Ha].
  destruct (m w) as [r w']. simpl in Ha. subst r. apply Hk.
Qed.

Lemma completes_for_each {A} (f : A → M unit) (xs : list A) :
  Forall (λ x, completes (f x)) xs → completes (for_each f xs).
Proof.
  induction 1 as [|x xs Hx _ IH]; simpl; [apply completes_ret|].
  by apply completes_bind.
Qed.

Lemma completes_read (E : env) (ev : event) :
  (∀ n ev, read_event ev = true → fault E n ev = None) →
  read_event ev = true → completes (call E ev).
Proof.
  intros Hf Hev w. unfold call. rewrite (Hf _ _ Hev). by exists tt.
Qed.

(** X12.  The loops over companies and jobs (lines 250-311), run on their
    own on the store's collections: when the three reads succeed, the
    embedder does not raise and every job description is a string or
    absent, they end normally, whatever the queries and the status writes
    do. *)
Theorem matching_completes (E : env) (w : world) :
  (∀ n ev, read_event ev = true → fault E n ev = None) →
  (∀ text, ∃ v, model_encode E text = inr v) →
  Forall (λ j, description j = None ∨ ∃ d, description j = Some (VStr d))
    (jobs E) →
  (match_companies E w).1 = Ok tt.
Proof.
  intros Hf Hm Hd.
  assert (completes (match_companies E)) as Hc.
  2:{ destruct (Hc w) as [[] Ha]. exact Ha. }
  unfold match_companies.
  apply completes_bind.
  { unfold find_companies. apply completes_bind;
      [by apply completes_read|intros; apply completes_ret]. }
  intros cs. apply completes_for_each, Forall_forall. intros c _.
  unfold match_company. apply completes_bind.
  { unfold find_statuses. apply completes_bind;
      [by apply completes_read|intros; apply completes_ret]. }
  intros [|st sts]; [apply completes_ret|].
  intros w0. unfold bind, find_jobs, bind.
  assert (call E (EvFindJobs (c_id c) (js_id st)) w0
          = (Ok tt, log (EvFindJobs (c_id c) (js_id st)) w0)) as ->
    by (unfold call; by rewrite (Hf _ (EvFindJobs _ _) eq_refl)).
  unfold ret at 1. apply completes_for_each.
  apply Forall_forall. intros j [_ Hj]%list_elem_of_filter.
  rewrite Forall_forall in Hd. specialize (Hd j Hj).
  unfold match_job. apply completes_bind.
  { unfold job_description. destruct Hd as [->|[d ->]]; apply completes_ret. }
  intros d. destruct (falsy_str (strip d)); [apply completes_ret|].
  apply completes_bind.
  { unfold encode. apply completes_bind; [intros w1; by exists tt|].
    intros _. destruct (Hm (clean_html E d)) as [v ->]. apply completes_ret. }
  intros v w1. unfold try_except, catch.
  pose proof (returns_match_results E (j_id j) v w1) as Hr.
  destruct (match_results E (j_id j) v w1) as [[[]|e0|] w2];
    [by exists tt|by exists tt|done].
Qed.

Lemma match_results_own_job_witness :
  ∃ evs cutoff,
    trace (match_results (matching_env [] no_fault) (lit "j1") [1%float]
             (start ∅)).2
      = [] ++ EvQuery [1%float] :: evs ∧
    Forall (λ ev, ∃ res p a s,
              res ∈ query_points (matching_env [] no_fault) [1%float] ∧
              sp_payload res = Some p ∧
              p_job_id p = Some (VStr (lit "j1")) ∧
              p_application_id p = Some a ∧ sp_score res = Some s ∧
              ev = EvUpdate a (SetStatus (decide_status cutoff s))) evs ∧
    ((∃ res, res ∈ query_points (matching_env [] no_fault) [1%float]
             ∧ sp_payload res = None) →
       evs = []).
Proof.
  refine (match_results_own_job (matching_env [] no_fault) (lit "j1")
            [1%float] (start ∅)
            (match_results (matching_env [] no_fault) (lit "j1") [1%float]
               (start ∅)).2 (Ok tt) _).
  vm_compute. reflexivity.
Defined.

Lemma matching_completes_witness :
  (match_companies
     (matching_env [mk_job (lit "j1") (lit "<p>Build <b>APIs</b></p>")]
        a1_write_fails)
     (start ∅)).1 = Ok tt.
Proof.
  refine (matching_completes
            (matching_env [mk_job (lit "j1") (lit "<p>Build <b>APIs</b></p>")]
               a1_write_fails) (start ∅) _ _ _).
  - intros n ev Hev. by destruct ev.
  - intros text. by eexists.
  - constructor; [|constructor]. right. by eexists.
Defined.

(** ** The trigger endpoint *)

Lemma length_delete_lookup {A} (l : list A) (i : nat) (x : A) :
  l !! i = Some x → length (delete i l) = length l - 1.
Proof.
  intros H. by apply length_delete.
Qed.

Lemma run_agent_guarded (AGENT : str) (a : action) (s : server) :
  guarded s → guarded (run_agent AGENT a s).
Proof.
  unfold guarded. intros [Hle Hiff]. destruct a as [p|i|i st]; simpl.
  - destruct (_agent_running s) eqn:Hr; simpl.
    + split; [done|]. split; [intros _; by apply Hiff|done].
    + assert (length (admitted s) + length (threads s) = 0) as H0.
      { destruct (decide (length (admitted s) + length (threads s) = 1))
          as [H1|H1]; [apply Hiff in H1; congruence|lia]. }
      rewrite length_app. simpl. split; [lia|]. split; [lia|done].
  - destruct (admitted s !! i) as [p|] eqn:Hi; [|done].
    pose proof (length_delete_lookup _ _ _ Hi) as Hd.
    pose proof (lookup_lt_Some _ _ _ Hi) as Hlt.
    destruct (parse_mode (default AGENT p)); simpl.
    + rewrite length_app, Hd. simpl. split; [lia|].
      rewrite Hiff. lia.
    + rewrite Hd. split; [lia|]. split; [done|lia].
  - destruct (threads s !! i) as [m|] eqn:Hi; [|done]. simpl.
    pose proof (length_delete_lookup _ _ _ Hi) as Hd.
    pose proof (lookup_lt_Some _ _ _ Hi) as Hlt.
    rewrite Hd. split; [lia|]. split; [done|lia].
Qed.

(** X13.  However requests and background threads interleave from the
    idle state, at most one request or thread holds the guard at any time
    and the running flag is set exactly then; a request that finds the flag
    set is answered "already running" and starts nothing; and a request
    with an invalid mode frees the guard again. *)
Theorem run_agent_single_flight (AGENT : str) (acts : list action) :
  guarded (serve AGENT acts idle) ∧
  (∀ p, _agent_running (serve AGENT acts idle) = true →
     threads (run_agent AGENT (Guard p) (serve AGENT acts idle))
       = threads (serve AGENT acts idle) ∧
     admitted (run_agent AGENT (Guard p) (serve AGENT acts idle))
       = admitted (serve AGENT acts idle) ∧
     responses (run_agent AGENT (Guard p) (serve AGENT acts idle))
       = responses (serve AGENT acts idle) ++ [AlreadyRunning]) ∧
  (∀ p, _agent_running (serve AGENT acts idle) = false →
     parse_mode (default AGENT p) = None →
     let s := serve AGENT (acts ++ [Guard p; Check 0]) idle in
     _agent_running s = false ∧ admitted s = [] ∧ threads s = [] ∧
     responses s = responses (serve AGENT acts idle)
                     ++ [InvalidMode (default AGENT p)]).
Proof.
  assert (∀ s, guarded s → guarded (serve AGENT acts s)) as Hinv.
  { unfold serve. induction acts as [|a acts IH]; intros s Hs; [done|].
    simpl. by apply IH, run_agent_guarded. }
  assert (guarded idle) as Hidle by (split; [simpl; lia|done]).
  specialize (Hinv idle Hidle).
  split; [done|]. split.
  - intros p Hr. simpl. by rewrite Hr.
  - intros p Hr Hp. unfold serve in *. rewrite fold_left_app. simpl.
    rewrite Hr. simpl.
    destruct Hinv as [Hle Hiff].
    assert (length (admitted (fold_left (λ s a, run_agent AGENT a s) acts idle))
            + length (threads (fold_left (λ s a, run_agent AGENT a s) acts idle))
            = 0) as H0.
    { destruct (decide (length (admitted (fold_left (λ s a, run_agent AGENT a s) acts idle))
            + length (threads (fold_left (λ s a, run_agent AGENT a s) acts idle)) = 1))
        as [H1|H1]; [apply Hiff in H1; congruence|lia]. }
    destruct (admitted (fold_left (λ s a, run_agent AGENT a s) acts idle))
      as [|x l] eqn:Ha; [|simpl in H0; lia].
    destruct (threads (fold_left (λ s a, run_agent AGENT a s) acts idle))
      as [|y l'] eqn:Hth; [|simpl in H0; lia].
    simpl. rewrite Hp. done.
Qed.

Lemma run_agent_single_flight_witness :
  responses (run_agent (lit "index") (Guard None)
               (serve (lit "index") [Guard None; Check 0] idle))
    = [Started Index; AlreadyRunning] ∧
  responses (serve (lit "index") ([] ++ [Guard (Some (lit "all")); Check 0])
               idle)
    = [InvalidMode (lit "all")].
Proof.
  destruct (run_agent_single_flight (lit "index") [Guard None; Check 0])
    as (_ & H409 & _).
  destruct (run_agent_single_flight (lit "index") []) as (_ & _ & H400).
  split.
  - exact (proj2 (proj2 (H409 None eq_refl))).
  - exact (proj2 (proj2 (proj2 (H400 (Some (lit "all")) eq_refl eq_refl)))).
Defined.

(** ** Start-up *)

Lemma startup_with_qdrant (C : Startup.config)
    (fails : nat → Startup.service_call → option str) (s : Startup.state) :
  Startup.qdrant s = true →
  (∃ new,
     Startup.calls (Startup.init_resources C fails s).2
       = Startup.calls s ++ new ∧
     (Startup.CollectionExists ∉ new) ∧ (Startup.CreateCollection ∉ new) ∧
     (Startup.MakeQdrantClient ∉ new)) ∧
  Startup.collection (Startup.init_resources C fails s).2
    = Startup.collection s ∧
  Startup.qdrant (Startup.init_resources C fails s).2 = true.
Proof.
  intros Hq. unfold Startup.init_resources, Startup.andthen, Startup.skip,
    Startup.attempt, Startup.swallow, Startup.set_s3, Startup.set_mongo,
    Startup.set_model.
  destruct s as [s3 mongo qdrant model collection calls]. simpl in *.
  subst qdrant.
  assert (∀ l : list Startup.service_call,
            Forall (λ c, c ≠ Startup.CollectionExists
                         ∧ c ≠ Startup.CreateCollection
                         ∧ c ≠ Startup.MakeQdrantClient) l →
            (Startup.CollectionExists ∉ l) ∧ (Startup.CreateCollection ∉ l)
            ∧ (Startup.MakeQdrantClient ∉ l)) as Hnot.
  { intros l Hl. rewrite Forall_forall in Hl.
    split; [|split]; intros Hin; apply Hl in Hin;
      by destruct Hin as (? & ? & ?). }
  destruct s3, mongo, model, (Startup.aws_set C), (Startup.mongo_set C);
    simpl;
    repeat (match goal with
            | |- context [fails ?n ?c] => destruct (fails n c); simpl
            end);
    (split; [|done]);
    first
      [ exists []; split; [by rewrite app_nil_r|]; apply Hnot; by constructor
      | eexists [_]; split; [by rewrite <- ?app_assoc|];
        apply Hnot; by repeat constructor
      | eexists [_; _]; split; [by rewrite <- ?app_assoc|];
        apply Hnot; by repeat constructor
      | eexists [_; _; _]; split; [by rewrite <- ?app_assoc|];
        apply Hnot; by repeat constructor ].
Qed.

(** X14.  When the collection check raises during start-up, the handle of
    the vector index has already been set; and once that handle is set, no
    later start-up call, however many follow and whatever they meet, makes
    the client again or checks or creates the collection, so a collection
    that was absent stays absent. *)
Theorem startup_collection_never_retried (C : Startup.config)
    (fails : nat → Startup.service_call → option str)
    (later : list (nat → Startup.service_call → option str))
    (s : Startup.state) (msg : str) :
  Startup.qdrant s = false → Startup.qdrant_set C = true →
  Startup.collection s = false →
  (∀ n, fails n Startup.CollectionExists = Some msg) →
  (∀ n c, c ≠ Startup.CollectionExists → fails n c = None) →
  (Startup.init_resources C fails s).1 = Some msg ∧
  Startup.qdrant (Startup.init_resources C fails s).2 = true ∧
  Startup.collection
    (Startup.repeat_init C later (Startup.init_resources C fails s).2)
    = false.
Proof.
  intros Hq Hset Hcol Hfail Hok.
  assert (∀ runs s0, Startup.qdrant s0 = true →
            Startup.collection (Startup.repeat_init C runs s0)
            = Startup.collection s0) as Hkeep.
  { induction runs as [|f runs IH]; intros s0 Hs0; [done|]. simpl.
    destruct (startup_with_qdrant C f s0 Hs0) as (_ & Hc & Hq').
    rewrite IH by done. exact Hc. }
  assert ((Startup.init_resources C fails s).1 = Some msg ∧
          Startup.qdrant (Startup.init_resources C fails s).2 = true ∧
          Startup.collection (Startup.init_resources C fails s).2 = false)
    as (H1 & H2 & H3).
  { unfold Startup.init_resources, Startup.andthen, Startup.skip,
      Startup.attempt, Startup.swallow, Startup.set_s3, Startup.set_mongo,
      Startup.set_qdrant.
    destruct s as [s3 mongo qdrant model collection calls]. simpl in *.
    subst qdrant collection. rewrite Hset.
    destruct s3, mongo, (Startup.aws_set C), (Startup.mongo_set C); simpl;
      rewrite ?(Hok _ Startup.MakeS3Client), ?(Hok _ Startup.MakeMongoClient),
        ?(Hok _ Startup.MakeQdrantClient) by discriminate; simpl;
      rewrite ?(Hok _ Startup.MakeS3Client), ?(Hok _ Startup.MakeMongoClient),
        ?(Hok _ Startup.MakeQdrantClient) by discriminate; simpl;
      rewrite ?(Hok _ Startup.MakeQdrantClient) by discriminate; simpl;
      rewrite Hfail; done. }
  split; [done|]. split; [done|]. by rewrite Hkeep.
Qed.

Lemma startup_collection_never_retried_witness :
  (Startup.init_resources Startup.all_set Startup.check_fails
     Startup.fresh).1 = Some (lit "timed out") ∧
  Startup.qdrant (Startup.init_resources Startup.all_set Startup.check_fails
                    Startup.fresh).2 = true ∧
  Startup.collection
    (Startup.repeat_init Startup.all_set [fun _ _ => None; fun _ _ => None]
       (Startup.init_resources Startup.all_set Startup.check_fails
          Startup.fresh).2)
    = false.
Proof.
  refine (startup_collection_never_retried Startup.all_set
            Startup.check_fails [fun _ _ => None; fun _ _ => None]
            Startup.fresh (lit "timed out") eq_refl eq_refl eq_refl _ _).
  - intros n. reflexivity.
  - intros n c Hc. unfold Startup.check_fails. by case_decide.
Defined.

(** X15.  Start-up never raises because of the model: when only the model
    load can fail, it returns normally, sets the handle of every configured
    service, has the collection in place when it connected to the index,
    and leaves the model unset exactly when its load failed, to be tried
    again by the next call. *)
Theorem startup_model_failure (C : Startup.config)
    (fails : nat → Startup.service_call → option str) (s : Startup.state) :
  (∀ n c, c ≠ Startup.LoadModel → fails n c = None) →
  (Startup.init_resources C fails s).1 = None ∧
  Startup.s3 (Startup.init_resources C fails s).2
    = Startup.s3 s || Startup.aws_set C ∧
  Startup.mongo (Startup.init_resources C fails s).2
    = Startup.mongo s || Startup.mongo_set C ∧
  Startup.qdrant (Startup.init_resources C fails s).2
    = Startup.qdrant s || Startup.qdrant_set C ∧
  (Startup.qdrant s = false → Startup.qdrant_set C = true →
     Startup.collection (Startup.init_resources C fails s).2 = true) ∧
  ((∀ n, fails n Startup.LoadModel ≠ None) →
     Startup.model (Startup.init_resources C fails s).2 = Startup.model s) ∧
  ((∀ n, fails n Startup.LoadModel = None) →
     Startup.model (Startup.init_resources C fails s).2 = true).
Proof.
  intros Hok.
  assert (∀ n, fails n Startup.MakeS3Client = None) as H1
    by (intros; by apply Hok).
  assert (∀ n, fails n Startup.MakeMongoClient = None) as H2
    by (intros; by apply Hok).
  assert (∀ n, fails n Startup.MakeQdrantClient = None) as H3
    by (intros; by apply Hok).
  assert (∀ n, fails n Startup.CollectionExists = None) as H4
    by (intros; by apply Hok).
  assert (∀ n, fails n Startup.CreateCollection = None) as H5
    by (intros; by apply Hok).
  unfold Startup.init_resources, Startup.andthen, Startup.skip,
    Startup.attempt, Startup.swallow, Startup.set_s3, Startup.set_mongo,
    Startup.set_qdrant, Startup.set_model, Startup.set_collection.
  destruct s as [s3 mongo qdrant model collection calls],
    C as [aws mg qd]. simpl.
  destruct s3, aws; simpl; rewrite ?H1; simpl;
    destruct mongo, mg; simpl; rewrite ?H2; simpl;
    destruct qdrant, qd; simpl; rewrite ?H3; simpl; rewrite ?H4; simpl;
    destruct collection; simpl; rewrite ?H5; simpl;
    destruct model; simpl;
    try (match goal with
         | |- context [fails ?n Startup.LoadModel] =>
             destruct (fails n Startup.LoadModel) eqn:Hl; simpl
         end);
    (split; [done|]); (split; [done|]); (split; [done|]); (split; [done|]);
    (split; [done|]);
    (split; intros Hm); try done;
    first [ by destruct (Hm _ Hl) | by rewrite Hm in Hl ].
Qed.

Lemma startup_model_failure_witness :
  (Startup.init_resources Startup.all_set
     (fun _ c => if decide (c = Startup.LoadModel)
                 then Some (lit "no such model") else None)
     Startup.fresh).1 = None.
Proof.
  refine (proj1 (startup_model_failure Startup.all_set _ Startup.fresh _)).
  intros n c Hc. by case_decide.
Defined.

(** ** Missing collaborators *)

(** X16.  When start-up raises, either pipeline raises the same exception
    before any call; when it does not but the store collection, the index
    client or the model is missing, either pipeline returns normally
    without a call and without a change, as a run with nothing to do
    would. *)
Theorem missing_collaborator_noop (E : env) (fuel : nat) (w : world) :
  (∀ msg, init_error E = Some msg →
     resume_indexing_agent E fuel w = (Raise (Exn Resources msg), w) ∧
     jd_matching_agent E w = (Raise (Exn Resources msg), w)) ∧
  (init_error E = None → collaborator_missing E →
     resume_indexing_agent E fuel w = (Ok tt, w) ∧
     jd_matching_agent E w = (Ok tt, w)).
Proof.
  unfold resume_indexing_agent, jd_matching_agent, bind, init_resources.
  split.
  - intros msg ->. done.
  - intros -> [H|[H|H]]; cbn -[indexing_loop]; rewrite H;
      cbn -[indexing_loop];
      destruct (negb (applications_configured E)); try done;
      destruct (negb (qdrant_configured E)); done.
Qed.

Lemma missing_collaborator_noop_witness :
  resume_indexing_agent no_store 5 (start long_store)
    = (Ok tt, start long_store) ∧
  jd_matching_agent no_store (start long_store) = (Ok tt, start long_store).
Proof.
  refine (proj2 (missing_collaborator_noop no_store 5 (start long_store))
            eq_refl _).
  by left.
Defined.

(** ** A score that is not a number *)

Lemma is_nan_spec (x : float) : is_nan x = true → Prim2SF x = S754_nan.
Proof.
  unfold is_nan. intros H%negb_true_iff.
  rewrite FloatAxioms.eqb_spec in H. unfold SFeqb in H.
  destruct (Prim2SF x) as [sx|sx| |sx mx ex]; simpl in H; try done.
  - by destruct sx.
  - destruct sx; rewrite Z.compare_refl in H;
      change (Pos.compare_cont Eq mx mx) with (Pos.compare mx mx) in H;
      by rewrite Pos.compare_refl in H.
Qed.

Lemma nan_ltb (x y : float) : is_nan x = true → (x <? y)%float = false.
Proof.
  intros H%is_nan_spec. rewrite FloatAxioms.ltb_spec. unfold SFltb.
  by rewrite H.
Qed.

Lemma nan_leb (x y : float) : is_nan x = true → (x <=? y)%float = false.
Proof.
  intros H%is_nan_spec. rewrite FloatAxioms.leb_spec. unfold SFleb.
  by rewrite H.
Qed.

Lemma nan_mul (x y : float) : is_nan x = true → is_nan (x * y)%float = true.
Proof.
  intros H%is_nan_spec. unfold is_nan. apply negb_true_iff.
  rewrite FloatAxioms.eqb_spec, mul_spec, H. reflexivity.
Qed.

Lemma py_max_nan (x : float) (xs : list float) :
  is_nan x = true → py_max x xs = x.
Proof.
  intros H. induction xs as [|y xs IH]; [done|].
  rewrite py_max_cons. by rewrite (nan_ltb x y H).
Qed.

(** X17.  When the first score of a job's results is not a number, it is
    taken as the best score, and while the store accepts the writes every
    result of the job that is written is written "rejected". *)
Theorem nan_first_rejects_all (E : env) (results : list scored_point)
    (s0 : float) (scores : list float) (w : world) :
  omap sp_score results = s0 :: scores →
  is_nan s0 = true →
  no_store_fault E →
  py_max s0 scores = s0 ∧
  ∃ w' evs, select_and_write E results w = (Ok tt, w') ∧
    trace w' = trace w ++ evs ∧ all_rejected evs.
Proof.
  intros Hs Hnan Hn. split; [by apply py_max_nan|].
  destruct (select_and_write_ok E results s0 scores w Hs Hn) as (w' & Hr & Ht).
  exists w', (status_writes (py_max s0 scores * SELECTION_FACTOR) results).
  split; [done|]. split; [done|].
  apply Forall_forall. intros ev Hev.
  apply status_writes_elem in Hev as (r & p & a & s & _ & _ & _ & _ & _ & ->).
  exists a. unfold decide_status.
  rewrite nan_leb; [done|]. apply nan_mul. by rewrite py_max_nan.
Qed.

Lemma nan_first_rejects_all_witness :
  ∃ w' evs,
    select_and_write sample_env
      [mk_result (lit "a1") (lit "j1") nan;
       mk_result (lit "a2") (lit "j1") 0.9%float] (start ∅) = (Ok tt, w') ∧
    trace w' = [] ++ evs ∧ all_rejected evs.
Proof.
  refine (proj2 (nan_first_rejects_all sample_env
                   [mk_result (lit "a1") (lit "j1") nan;
                    mk_result (lit "a2") (lit "j1") 0.9%float]
                   nan [0.9%float] (start ∅) eq_refl eq_refl _)).
  intros n ev _. reflexivity.
Defined.

(** ** Records the pipelines have written *)

(** X18.  A record either pipeline has written is never fetched by the
    indexing poll again: a document marked indexed, failed, selected or
    rejected does not pass the filter of the poll, whatever its other
    fields. *)
Theorem written_record_not_polled (u : update) (cutoff score : float)
    (d : application) :
  (terminal u = true → indexing_query (apply_update u d) = false) ∧
  indexing_query (apply_update (SetStatus (decide_status cutoff score)) d)
    = false.
Proof.
  split.
  - intros Hu. by apply done_not_pending, terminal_done.
  - unfold indexing_query, decide_status. simpl.
    destruct (cutoff <=? score)%float; simpl;
      by rewrite andb_false_r.
Qed.

Lemma written_record_not_polled_witness :
  indexing_query
    (apply_update (SetFailed (lit "No text extracted"))
       (mk_application (lit "https://cv/a.pdf") (lit "open") None)) = false.
Proof.
  exact (proj1 (written_record_not_polled
                  (SetFailed (lit "No text extracted")) 0%float 0%float
                  (mk_application (lit "https://cv/a.pdf") (lit "open") None))
           eq_refl).
Defined.

(** ** A turn that ends with an exception *)

Lemma mark_failed_raise (E : env) (id : str) (e0 e : exn) (w w' : world) :
  mark_failed E id e0 w = (Raise e, w') → exn_origin e = DocumentStore.
Proof.
  unfold mark_failed. intros H.
  by apply update_one_inv in H as [_ [[[=] _]|[(msg & [= ->] & _) _]]].
Qed.

Lemma index_record_raise (E : env) (kd : str * application)
    (points : list point) (w w' : world) (e : exn) :
  index_record E kd points w = (Raise e, w') → exn_origin e = DocumentStore.
Proof.
  unfold index_record, catch.
  destruct (build_point E kd.1 (default [] (jobID kd.2)) kd.2 w)
    as [[pt|e0|] w0]; [| |done].
  - unfold mark_indexed, bind, now.
    destruct (update_one E (VStr kd.1) (SetIndexed (length (trace w0))) w0)
      as [[[]|e1|] w1]; [done| |done].
    destruct (mark_failed E kd.1 e1 w1) as [[[]|e2|] w2] eqn:Hm; [done| |done].
    intros [= <- <-]. by apply mark_failed_raise in Hm.
  - unfold bind.
    destruct (mark_failed E kd.1 e0 w0) as [[[]|e2|] w2] eqn:Hm; [done| |done].
    intros [= <- <-]. by apply mark_failed_raise in Hm.
Qed.

Lemma process_batch_raise (E : env) (batch : list (str * application)) :
  ∀ (points : list point) (w w' : world) (e : exn),
  process_batch E batch points w = (Raise e, w') →
  exn_origin e = DocumentStore.
Proof.
  induction batch as [|kd rest IH]; intros points w w' e; simpl; [done|].
  unfold bind. destruct (index_record E kd points w) as [[pts|e1|] w1] eqn:Hi.
  - apply IH.
  - intros [= <- <-]. by apply index_record_raise in Hi.
  - done.
Qed.

(** X19.  A turn of the indexing loop that ends with an exception of the
    document store has made no upsert; a turn that ends because the upsert
    was refused has already marked every record of its batch, so that none
    of them is pending afterwards although no point of the batch was
    stored. *)
Theorem failed_turn_loses_batch (E : env) (batch : list (str * application))
    (w w' : world) (e : exn) :
  index_batch E batch w = (Raise e, w') →
  (exn_origin e = DocumentStore →
     ∃ evs, trace w' = trace w ++ evs ∧
            Forall (λ ev, record_event ev = true) evs) ∧
  (exn_origin e = VectorIndex →
     (∀ kd, kd ∈ batch → applications w !! kd.1 = Some kd.2) →
     marked batch.*1 (applications w) (applications w') ∧
     ∀ kd, kd ∈ batch → kd.1 ∉ (pending (applications w')).*1).
Proof.
  unfold index_batch, bind.
  destruct (process_batch E batch [] w) as [r0 w0] eqn:Hp.
  pose proof Hp as Hp'.
  apply process_batch_spec in Hp' as (evs & Ht & Hf & Hr).
  destruct r0 as [points|e0|]; [| |done].
  - destruct Hr as (new & _ & _ & Hm).
    destruct points as [|pt points]; [done|]. unfold upsert.
    destruct (call E (EvUpsert (pt :: points)) w0) as [r1 w1] eqn:Hc.
    apply call_inv in Hc as [-> [[-> _]|(msg & -> & _)]]; [done|].
    intros [= <- <-]. split; [done|]. intros _ Hstored.
    split; [done|]. intros kd Hin Hpk.
    apply elem_of_pending_keys in Hpk as (d' & Hl' & Hq).
    destruct (Hm kd.1) as (H1 & _ & _).
    destruct (H1 ltac:(apply list_elem_of_fmap; by exists kd) kd.2
                (Hstored kd Hin)) as (d'' & Hl'' & Hd).
    simpl in Hl'. rewrite Hl' in Hl''. injection Hl'' as <-.
    apply done_not_pending in Hd. congruence.
  - intros [= <- <-]. apply process_batch_raise in Hp. split.
    + intros _. by exists evs.
    + intros Ho. rewrite Hp in Ho. done.
Qed.

Lemma failed_turn_loses_batch_witness :
  marked long_batch.*1 (applications (start long_store))
    (applications (index_batch upsert_down long_batch (start long_store)).2) ∧
  ∀ kd, kd ∈ long_batch →
    kd.1 ∉ (pending (applications
                       (index_batch upsert_down long_batch
                          (start long_store)).2)).*1.
Proof.
  refine (proj2 (failed_turn_loses_batch upsert_down long_batch
                   (start long_store)
                   (index_batch upsert_down long_batch (start long_store)).2
                   (Exn VectorIndex (lit "connection refused")) _)
            eq_refl _).
  - vm_compute. reflexivity.
  - intros kd [->|Hin]%elem_of_cons; [vm_compute; reflexivity|].
    by apply elem_of_nil in Hin.
Defined.

(** ** The collection lookup of the matching pipeline *)

(** X20.  When start-up does not raise and the store collection, the index
    client and the model are all present, the matching pipeline ends at the
    collection lookup of line 246 with the [TypeError] of that call, before
    any read, embedding, query or write; the trigger task run for the
    matching pipeline alone then records the text of that exception. *)
Theorem matching_stops_at_lookup (E : env) (fuel : nat) (w : world) :
  init_error E = None →
  applications_configured E = true →
  qdrant_configured E = true →
  model_loaded E = true →
  jd_matching_agent E w = (Raise NotCallable, w) ∧
  _run_agent_task E fuel Matching w
  = Some ({| agent_running := false; last_run := Some (length (trace w));
             last_error := Some (exn_msg NotCallable) |}, w).
Proof.
  intros Hi Ha Hq Hm.
  assert (jd_matching_agent E w = (Raise NotCallable, w)) as Hj.
  { unfold jd_matching_agent, bind, init_resources.
    rewrite Hi, Ha, Hq, Hm. reflexivity. }
  split; [exact Hj|].
  unfold _run_agent_task, run_pipelines, bind. simpl. by rewrite Hj.
Qed.

Lemma matching_stops_at_lookup_witness :
  jd_matching_agent
    (matching_env [mk_job (lit "j1") (lit "<p>Build <b>APIs</b></p>")]
       no_fault) (start long_store)
  = (Raise NotCallable, start long_store).
Proof.
  refine (proj1 (matching_stops_at_lookup
                   (matching_env
                      [mk_job (lit "j1") (lit "<p>Build <b>APIs</b></p>")]
                      no_fault) 1 (start long_store)
                   eq_refl eq_refl eq_refl eq_refl)).
Defined.
